(** * Ingestion service: priority queue, batching and the scheduler loop

    A shallow embedding of [src/main.py] (FastAPI ingestion service) and the
    properties of its scheduling core.

    Modelling conventions.
    - Python [int] identifiers are [Z]; [time.time()] readings and sleep
      durations are rationals [Q] (no rounding is modelled).
    - [uuid.uuid4()] is random: every function that calls it takes an oracle
      [u : nat -> string]; [u k] is the value returned by the [k]-th call.
    - The Redis database is a [gmap string JobRecord] holding the keys that
      match ["ingestion:*"]; a stored value is the record that
      [json.loads] gives back for it.  [redis_client.keys] enumerates the keys
      in an order Redis does not specify: it is the section variable [scan].
    - The coroutines of the service only interleave at an [await] that really
      suspends ([asyncio.sleep]).  The scheduler loop is therefore a machine
      whose states are its suspension points; [ingest_data] and [get_status]
      never suspend and are atomic. *)

From Stdlib Require Import QArith Lqa ZifyNat.
From stdpp Require Import gmap strings list fin_maps pretty sorting.

Local Open Scope Z_scope.

(** ** Data model *)

(** [class Priority(str, Enum)] *)
Inductive Priority := HIGH | MEDIUM | LOW.

(** [Priority.get_value] *)
Definition get_value (p : Priority) : Z :=
  match p with
  | HIGH => 0
  | MEDIUM => 1
  | LOW => 2
  end.

(** [class BatchStatus(str, Enum)] *)
Inductive BatchStatus := YET_TO_START | TRIGGERED | COMPLETED.

Global Instance BatchStatus_eq_dec : EqDecision BatchStatus.
Proof. solve_decision. Defined.

Global Instance Priority_eq_dec : EqDecision Priority.
Proof. solve_decision. Defined.

(** The lowercase token a status is serialised to. *)
Definition status_token (s : BatchStatus) : string :=
  match s with
  | YET_TO_START => "yet_to_start"
  | TRIGGERED => "triggered"
  | COMPLETED => "completed"
  end.

(** [class IngestionRequest(BaseModel)] *)
Record IngestionRequest := mkRequest {
  req_ids : list Z;
  req_priority : Priority
}.

(** [class Batch] *)
Record Batch := mkBatch {
  batch_id : string;
  ids : list Z;
  status : BatchStatus
}.

(** The dictionary built by [Batch.to_dict], which is also the shape of an
    element of ["batches"] in a persisted record. *)
Record BatchDict := mkBatchDict {
  d_batch_id : string;
  d_ids : list Z;
  d_status : BatchStatus
}.

Definition Batch_to_dict (b : Batch) : BatchDict :=
  {| d_batch_id := batch_id b; d_ids := ids b; d_status := status b |}.

(** [class IngestionJob] *)
Record IngestionJob := mkJob {
  ingestion_id : string;
  job_ids : list Z;
  priority : Priority;
  created_time : Q;
  batches : list Batch
}.

(** The dictionary built by [IngestionJob.to_dict]: the persisted record. *)
Record JobRecord := mkRecord {
  r_ingestion_id : string;
  r_status : BatchStatus;
  r_batches : list BatchDict
}.

(** ** Batch construction *)

(** Python's [range(i, stop, step)] for a positive [step], unrolled with
    [fuel] iterations at most. *)
Fixpoint range_from (fuel i stop step : nat) : list nat :=
  match fuel with
  | O => []
  | S fuel' =>
      if (i <? stop)%nat then i :: range_from fuel' (i + step) stop step else []
  end.

(** [range(0, stop, step)]: [stop] iterations are enough when [step >= 1]. *)
Definition range0 (stop step : nat) : list nat := range_from stop 0 stop step.

(** Python's slice [l[i:j]] for [0 <= i <= j]. *)
Definition slice {A} (i j : nat) (l : list A) : list A := take (j - i) (drop i l).

(** [IngestionJob._create_batches]: one batch, with a new uuid, for each start
    index of [range(0, len(ids), 3)].  The [k]-th batch is given [u (S k)];
    [u 0] is the ingestion identifier drawn before the job is built. *)
Definition _create_batches (u : nat → string) (l : list Z) : list Batch :=
  imap (λ k i, mkBatch (u (S k)) (slice i (i + 3) l) YET_TO_START)
       (range0 (length l) 3).

(** [IngestionJob.__init__] *)
Definition new_IngestionJob (u : nat → string) (iid : string) (l : list Z)
    (p : Priority) (t : Q) : IngestionJob :=
  {| ingestion_id := iid; job_ids := l; priority := p; created_time := t;
     batches := _create_batches u l |}.

(** ** Aggregate status *)

(** [IngestionJob.get_overall_status] *)
Definition get_overall_status (j : IngestionJob) : BatchStatus :=
  let statuses := status <$> batches j in
  if forallb (λ s, bool_decide (s = COMPLETED)) statuses then COMPLETED
  else if existsb (λ s, bool_decide (s = TRIGGERED)) statuses then TRIGGERED
  else YET_TO_START.

(** [IngestionJob.to_dict] *)
Definition to_dict (j : IngestionJob) : JobRecord :=
  {| r_ingestion_id := ingestion_id j;
     r_status := get_overall_status j;
     r_batches := Batch_to_dict <$> batches j |}.

(** The derivation rule of the overall status, read on a persisted record. *)
Definition derived_status (r : JobRecord) : BatchStatus :=
  let statuses := d_status <$> r_batches r in
  if forallb (λ s, bool_decide (s = COMPLETED)) statuses then COMPLETED
  else if existsb (λ s, bool_decide (s = TRIGGERED)) statuses then TRIGGERED
  else YET_TO_START.

(** ** Queue order *)

(** Comparison of two clock readings, [x < y] and [x <= y]. *)
Definition Qltb (x y : Q) : bool := Qnum x * QDen y <? Qnum y * QDen x.
Definition Qleb (x y : Q) : bool := Qnum x * QDen y <=? Qnum y * QDen x.

(** [IngestionJob.__lt__] *)
Definition job_lt (a b : IngestionJob) : bool :=
  if negb (get_value (priority a) =? get_value (priority b))
  then get_value (priority a) <? get_value (priority b)
  else Qltb (created_time a) (created_time b).

(** Python's comparison of the tuples [(rank, job)] put on the queue: the
    first components decide when they differ; otherwise the jobs, two
    distinct objects, are compared with [__lt__]. *)
Definition entry_lt (a b : Z * IngestionJob) : bool :=
  if negb (a.1 =? b.1) then a.1 <? b.1 else job_lt a.2 b.2.

(** ** The priority queue

    [asyncio.PriorityQueue] is a binary heap ordered by [<] on its entries.
    It is modelled by its contents, a list in arrival order: [put] appends,
    [get] removes an entry that no other entry is smaller than (the earliest
    arrived one when several are). *)
Definition pq_put (e : Z * IngestionJob) (q : list (Z * IngestionJob)) :
    list (Z * IngestionJob) := q ++ [e].

Fixpoint pq_get (q : list (Z * IngestionJob)) :
    option ((Z * IngestionJob) * list (Z * IngestionJob)) :=
  match q with
  | [] => None
  | x :: q' =>
      match pq_get q' with
      | None => Some (x, [])
      | Some (m, rest) =>
          if entry_lt m x then Some (m, x :: rest) else Some (x, q')
      end
  end.

(** The order in which [n] successive [get]s empty a queue. *)
Fixpoint pq_drain (n : nat) (q : list (Z * IngestionJob)) : list (Z * IngestionJob) :=
  match n with
  | O => []
  | S n' =>
      match pq_get q with
      | None => []
      | Some (e, rest) => e :: pq_drain n' rest
      end
  end.

(** The key order of the queue: rank first, creation time second. *)
Definition entry_before (a b : Z * IngestionJob) : Prop :=
  a.1 < b.1 ∨ (a.1 = b.1 ∧ (created_time a.2 < created_time b.2)%Q).

(** ** HTTP results *)

Inductive Response (A : Type) :=
  | OK (body : A)
  | HTTPException (status_code : Z) (detail : string).
Arguments OK {A} body.
Arguments HTTPException {A} status_code detail.

(** ** The service state *)

(** Where the coroutine [process_jobs] stands.  [Throttled], [IdleWait],
    [Backoff] and [Working] are its four [asyncio.sleep] calls, each with the
    earliest time at which the sleep may return; [AtTop] is the head of the
    [while] loop and [NextBatch job i] the head of the [for] loop, about to
    take [job.batches[i]].  The coroutine does not suspend at these two
    heads; stopping there gives every step one clock reading, and lets
    requests in at more places than the event loop does. *)
Inductive Sched :=
  | AtTop
  | Throttled (wake : Q)
  | IdleWait (wake : Q)
  | Backoff (wake : Q)
  | NextBatch (job : IngestionJob) (i : nat)
  | Working (job : IngestionJob) (i : nat) (wake : Q).

Record State := mkState {
  redis : gmap string JobRecord;
  job_queue : list (Z * IngestionJob);
  last_processed_time : Q;
  sched : Sched
}.

Definition set_sched (s : Sched) (st : State) : State :=
  {| redis := redis st; job_queue := job_queue st;
     last_processed_time := last_processed_time st; sched := s |}.

(** The state at process start, on an empty database. *)
Definition init : State :=
  {| redis := ∅; job_queue := []; last_processed_time := 0%Q; sched := AtTop |}.

(** [f"ingestion:{ingestion_id}"] *)
Definition ingestion_key (iid : string) : string := "ingestion:" +:+ iid.

(** ** Ingestion and status query *)

(** [1 <= id <= 10**9 + 7] *)
Definition id_in_range (id : Z) : bool := (1 <=? id) && (id <=? 10 ^ 9 + 7).

Definition invalid_id_detail (id : Z) : string :=
  "Invalid ID: " +:+ pretty id +:+ ". Must be between 1 and 10^9+7".

(** [ingest_data], called at time [now] with uuid oracle [u]. *)
Definition ingest_data (u : nat → string) (now : Q) (request : IngestionRequest)
    (st : State) : Response string * State :=
  match List.find (λ id, negb (id_in_range id)) (req_ids request) with
  | Some id => (HTTPException 400 (invalid_id_detail id), st)
  | None =>
      let ingestion_id := u O in
      let job := new_IngestionJob u ingestion_id (req_ids request)
                   (req_priority request) now in
      (OK ingestion_id,
       {| redis := <[ingestion_key ingestion_id := to_dict job]> (redis st);
          job_queue := pq_put (get_value (priority job), job) (job_queue st);
          last_processed_time := last_processed_time st;
          sched := sched st |})
  end.

(** [get_status] *)
Definition get_status (iid : string) (st : State) : Response JobRecord * State :=
  match redis st !! ingestion_key iid with
  | None => (HTTPException 404 "Ingestion job not found", st)
  | Some job_data => (OK job_data, st)
  end.

(** ** Persisting a batch transition *)

(** [b["status"] = s] on an element of ["batches"], and [job_data] with its
    ["batches"] rewritten. *)
Definition set_dict_status (s : BatchStatus) (b : BatchDict) : BatchDict :=
  {| d_batch_id := d_batch_id b; d_ids := d_ids b; d_status := s |}.

Definition set_record_batches (bs : list BatchDict) (r : JobRecord) : JobRecord :=
  {| r_ingestion_id := r_ingestion_id r; r_status := r_status r; r_batches := bs |}.

(** The inner loop of [update_redis_status] over [job_data["batches"]]: the
    first element with the batch's identifier gets the status; [None] when
    there is none. *)
Fixpoint set_batch_status (bid : string) (s : BatchStatus) (bs : list BatchDict) :
    option (list BatchDict) :=
  match bs with
  | [] => None
  | b :: bs' =>
      if decide (d_batch_id b = bid)
      then Some (set_dict_status s b :: bs')
      else cons b <$> set_batch_status bid s bs'
  end.

(** The outer loop over the keys.  Only ["batches"] of the first record that
    holds the batch is rewritten; ["status"] and ["ingestion_id"] are written
    back as they were read.  The result is [None] when [get] finds no value
    for a key ([json.loads] then raises). *)
Fixpoint update_scan (keys : list string) (batch : Batch)
    (db : gmap string JobRecord) : option (gmap string JobRecord) :=
  match keys with
  | [] => Some db
  | key :: keys' =>
      match db !! key with
      | None => None
      | Some job_data =>
          match set_batch_status (batch_id batch) (status batch) (r_batches job_data) with
          | Some bs =>
              Some (<[key := set_record_batches bs job_data]> db)
          | None => update_scan keys' batch db
          end
      end
  end.

Definition with_status (s : BatchStatus) (b : Batch) : Batch :=
  {| batch_id := batch_id b; ids := ids b; status := s |}.

Definition with_batches (bs : list Batch) (j : IngestionJob) : IngestionJob :=
  {| ingestion_id := ingestion_id j; job_ids := job_ids j; priority := priority j;
     created_time := created_time j; batches := bs |}.

(** The memory of the service: the jobs on the queue and the job being
    dispatched. *)
Definition current_job (s : Sched) : list IngestionJob :=
  match s with
  | NextBatch j _ | Working j _ _ => [j]
  | _ => []
  end.

Definition mem_jobs (st : State) : list IngestionJob :=
  (snd <$> job_queue st) ++ current_job (sched st).

(** The batch identifiers held by the database. *)
Definition stored_batch_ids (db : gmap string JobRecord) : list string :=
  map_to_list db ≫= λ kr, d_batch_id <$> r_batches kr.2.

(** One forward move of a status, or none. *)
Definition next_status (s : BatchStatus) : option BatchStatus :=
  match s with
  | YET_TO_START => Some TRIGGERED
  | TRIGGERED => Some COMPLETED
  | COMPLETED => None
  end.

Definition forward (s s' : BatchStatus) : Prop := s' = s ∨ next_status s = Some s'.

(** ** The scheduler loop *)

Section Machine.

(** [redis_client.keys("ingestion:*")], in whatever order Redis gives. *)
Variable scan : gmap string JobRecord → list string.

(** [update_redis_status] *)
Definition update_redis_status (batch : Batch) (db : gmap string JobRecord) :
    option (gmap string JobRecord) :=
  update_scan (scan db) batch db.

(** [process_jobs] from [if not job_queue.empty()]: pop a job and enter the
    [for] loop, or sleep 0.1. *)
Definition queue_check (now : Q) (st : State) : State :=
  match pq_get (job_queue st) with
  | None => set_sched (IdleWait (now + (1 # 10))%Q) st
  | Some ((_, job), rest) =>
      {| redis := redis st; job_queue := rest;
         last_processed_time := last_processed_time st;
         sched := NextBatch job 0 |}
  end.

(** [process_jobs] from the head of the [while] loop, where [time.time()]
    reads [now]: the throttle test, then either the throttle sleep or the
    queue check. *)
Definition loop_top (now : Q) (st : State) : State :=
  let current_time := now in
  if Qltb (current_time - last_processed_time st)%Q 5%Q
  then set_sched
         (Throttled (current_time + (5 - (current_time - last_processed_time st)))%Q) st
  else queue_check now st.

(** The head of [for batch in job.batches] at index [i].  With a batch left:
    mark it [TRIGGERED], persist, and enter [process_batch], which sleeps 1.
    With none left: [last_processed_time = time.time()] and back to the head
    of the [while] loop.  An exception of [update_redis_status] is caught by
    the loop, which then sleeps 1 and drops the job. *)
Definition for_batch (now : Q) (job : IngestionJob) (i : nat) (st : State) : State :=
  match batches job !! i with
  | None =>
      {| redis := redis st; job_queue := job_queue st;
         last_processed_time := now; sched := AtTop |}
  | Some batch =>
      let batch := with_status TRIGGERED batch in
      let job := with_batches (<[i := batch]> (batches job)) job in
      match update_redis_status batch (redis st) with
      | None => set_sched (Backoff (now + 1)%Q) st
      | Some db =>
          {| redis := db; job_queue := job_queue st;
             last_processed_time := last_processed_time st;
             sched := Working job i (now + 1)%Q |}
      end
  end.

(** [process_batch] after its sleep: mark the batch [COMPLETED], persist,
    and return to the [for] loop.  There is no transition from a [Working]
    state whose index is out of range ([for_batch] builds none). *)
Definition finish_batch (now : Q) (job : IngestionJob) (i : nat) (st : State) :
    option State :=
  match batches job !! i with
  | None => None
  | Some batch =>
      let batch := with_status COMPLETED batch in
      let job := with_batches (<[i := batch]> (batches job)) job in
      match update_redis_status batch (redis st) with
      | None => Some (set_sched (Backoff (now + 1)%Q) st)
      | Some db =>
          Some {| redis := db; job_queue := job_queue st;
                  last_processed_time := last_processed_time st;
                  sched := NextBatch job (S i) |}
      end
  end.

(** The scheduler runs at time [now] from where it stands to its next
    stop; a sleeping scheduler cannot resume before its wake time. *)
Definition sched_step (now : Q) (st : State) : option State :=
  match sched st with
  | AtTop => Some (loop_top now st)
  | Throttled w => if Qleb w now then Some (queue_check now st) else None
  | IdleWait w | Backoff w => if Qleb w now then Some (loop_top now st) else None
  | NextBatch job i => Some (for_batch now job i st)
  | Working job i w => if Qleb w now then finish_batch now job i st else None
  end.

(** ** Runs of the service *)

Inductive Event :=
  | EvIngest (now : Q) (u : nat → string) (request : IngestionRequest)
  | EvStatus (iid : string)
  | EvWake (now : Q).

(** The uuids drawn by an ingestion are new: the record key is not in the
    database, and the batch identifiers are distinct and not in it. *)
Definition fresh_uuids (u : nat → string) (request : IngestionRequest)
    (db : gmap string JobRecord) : Prop :=
  (ingestion_key (u O) ∉ dom db) ∧
  NoDup (batch_id <$> _create_batches u (req_ids request)) ∧
  Forall (λ x, x ∉ stored_batch_ids db)
         (batch_id <$> _create_batches u (req_ids request)).

Global Instance fresh_uuids_dec u request db : Decision (fresh_uuids u request db).
Proof. unfold fresh_uuids. apply _. Defined.

(** One event.  [None] when the event cannot happen: the scheduler resumed
    before its wake time, or [uuid4] repeated itself. *)
Definition step (ev : Event) (st : State) : option State :=
  match ev with
  | EvIngest now u request =>
      if forallb id_in_range (req_ids request)
         && negb (bool_decide (fresh_uuids u request (redis st)))
      then None
      else Some (ingest_data u now request st).2
  | EvStatus iid => Some (get_status iid st).2
  | EvWake now => sched_step now st
  end.

Fixpoint run (evs : list Event) (st : State) : option State :=
  match evs with
  | [] => Some st
  | ev :: evs' =>
      match step ev st with
      | None => None
      | Some st' => run evs' st'
      end
  end.

(** ** The dispatch log of a run *)

Inductive Mark :=
  | DispatchStart (t : Q)
  | DispatchEnd (t : Q).

(** A dispatch starts when the scheduler enters the [for] loop and ends
    when it leaves it for the head of the [while] loop. *)
Definition marks (ev : Event) (st st' : State) : list Mark :=
  match ev with
  | EvWake now =>
      match sched st, sched st' with
      | NextBatch _ _, AtTop => [DispatchEnd now]
      | (AtTop | Throttled _ | IdleWait _ | Backoff _), NextBatch _ _ =>
          [DispatchStart now]
      | _, _ => []
      end
  | _ => []
  end.

Fixpoint run_log (evs : list Event) (st : State) : option (State * list Mark) :=
  match evs with
  | [] => Some (st, [])
  | ev :: evs' =>
      match step ev st with
      | None => None
      | Some st' =>
          match run_log evs' st' with
          | None => None
          | Some (st'', log) => Some (st'', marks ev st st' ++ log)
          end
      end
  end.

End Machine.

(** A concrete enumeration order, for running the model. *)
Definition keys_of (db : gmap string JobRecord) : list string := (map_to_list db).*1.

(** ** Invariants of the reachable states *)

(** The queue entry that [ingest_data] builds for a job. *)
Definition queue_entry (j : IngestionJob) : Z * IngestionJob :=
  (get_value (priority j), j).

Definition job_before (a b : IngestionJob) : Prop := entry_before (queue_entry a) (queue_entry b).

Definition job_key (j : IngestionJob) : string := ingestion_key (ingestion_id j).

(** The batch identifiers of a record, by position. *)
Definition record_bids (r : JobRecord) : list string := d_batch_id <$> r_batches r.

(** A batch identifier occurs at one place of the database only. *)
Definition unique_bids (db : gmap string JobRecord) : Prop :=
  ∀ k1 k2 r1 r2 i1 i2 b1 b2,
    db !! k1 = Some r1 → db !! k2 = Some r2 →
    r_batches r1 !! i1 = Some b1 → r_batches r2 !! i2 = Some b2 →
    d_batch_id b1 = d_batch_id b2 → k1 = k2 ∧ i1 = i2.

(** The record of a job in memory lists the job's batches as they are. *)
Definition mirrored (db : gmap string JobRecord) (j : IngestionJob) : Prop :=
  ∃ r, db !! job_key j = Some r ∧ r_batches r = Batch_to_dict <$> batches j.

(** The statuses of a job whose first [i] batches are done; [working] tells
    whether batch [i] is being processed. *)
Definition expected_status (i : nat) (working : bool) (k : nat) : BatchStatus :=
  if decide (k < i)%nat then COMPLETED
  else if working && bool_decide (k = i) then TRIGGERED
  else YET_TO_START.

Definition statuses_at (i : nat) (working : bool) (j : IngestionJob) : Prop :=
  ∀ k b, batches j !! k = Some b → status b = expected_status i working k.

Definition sched_ok (s : Sched) : Prop :=
  match s with
  | NextBatch j i => statuses_at i false j
  | Working j i _ => (i < length (batches j))%nat ∧ statuses_at i true j
  | Backoff _ => False
  | _ => True
  end.

Record Inv (st : State) : Prop := mkInv {
  inv_unique : unique_bids (redis st);
  inv_mirror : Forall (mirrored (redis st)) (mem_jobs st);
  inv_keys : NoDup (job_key <$> mem_jobs st);
  inv_queue :
    Forall (λ e, Forall (λ b, status b = YET_TO_START) (batches e.2)) (job_queue st);
  inv_sched : sched_ok (sched st)
}.

(** The wake time of a throttle sleep is not before the floor. *)
Definition throttle_ok (st : State) : Prop :=
  match sched st with
  | Throttled w => (last_processed_time st + 5 <= w)%Q
  | _ => True
  end.

Definition dispatching (s : Sched) : bool :=
  match s with
  | NextBatch _ _ | Working _ _ _ => true
  | _ => false
  end.

(** Every dispatch start that follows a dispatch end in the log is at least
    5 later. *)
Definition floor_ok (log : list Mark) : Prop :=
  ∀ l1 e s l2,
    log = l1 ++ DispatchEnd e :: DispatchStart s :: l2 → (e + 5 <= s)%Q.

(** A log of complete dispatches: starts and ends alternate.  [expect_start]
    tells whether the log begins outside a dispatch. *)
Fixpoint alternates (expect_start : bool) (log : list Mark) : Prop :=
  match log with
  | [] => True
  | DispatchStart _ :: log' => expect_start = true ∧ alternates false log'
  | DispatchEnd _ :: log' => expect_start = false ∧ alternates true log'
  end.

(** What one step may do to the persisted batches and to the batches in
    memory. *)
Definition persisted_forward (db db' : gmap string JobRecord) : Prop :=
  ∀ k r, db !! k = Some r →
    ∃ r', db' !! k = Some r' ∧
      length (r_batches r') = length (r_batches r) ∧
      ∀ i b b', r_batches r !! i = Some b → r_batches r' !! i = Some b' →
        d_batch_id b' = d_batch_id b ∧ forward (d_status b) (d_status b').

Definition memory_forward (st st' : State) : Prop :=
  ∀ j j', j ∈ mem_jobs st → j' ∈ mem_jobs st' → ingestion_id j = ingestion_id j' →
    ∀ i b b', batches j !! i = Some b → batches j' !! i = Some b' →
      batch_id b' = batch_id b ∧ forward (status b) (status b').

(** A record that appears has all its batches at [YET_TO_START]. *)
Definition born_pending (db db' : gmap string JobRecord) : Prop :=
  ∀ k r', db !! k = None → db' !! k = Some r' →
    Forall (λ b, d_status b = YET_TO_START) (r_batches r').

(** What every step from a state with the invariant achieves. *)
Definition step_ok (st st' : State) : Prop :=
  Inv st' ∧ persisted_forward (redis st) (redis st') ∧ memory_forward st st' ∧
  born_pending (redis st) (redis st').

(** ** Notions for the properties of whole runs *)

(** The place of a status on the line YET_TO_START, TRIGGERED, COMPLETED. *)
Definition status_rank (s : BatchStatus) : nat :=
  match s with
  | YET_TO_START => 0
  | TRIGGERED => 1
  | COMPLETED => 2
  end.

(** The overall status that [to_dict] gives a job nobody has touched yet:
    [all] of an empty list is true. *)
Definition ingestion_status (r : JobRecord) : BatchStatus :=
  match r_batches r with
  | [] => COMPLETED
  | _ :: _ => YET_TO_START
  end.

(** A record sits under the key of its own identifier and its batches carry
    one to three identifiers. *)
Definition record_shape (k : string) (r : JobRecord) : Prop :=
  k = ingestion_key (r_ingestion_id r) ∧
  Forall (λ b, (1 ≤ length (d_ids b) ≤ 3)%nat) (r_batches r).

(** The wake-ups that take the scheduler through [n] batches, the first one
    triggered at [t]: each batch is triggered, and completed one time unit
    later, when the next one is triggered. *)
Fixpoint dispatch_wakes (t : Q) (n : nat) : list Event :=
  match n with
  | O => []
  | S n' => EvWake t :: EvWake (t + 1)%Q :: dispatch_wakes (t + 1)%Q n'
  end.

(** * Properties *)

(** ** Aggregate status *)

Lemma forallb_bool_decide {A} (P : A → Prop) `{∀ x, Decision (P x)} (l : list A) :
  forallb (λ x, bool_decide (P x)) l = true ↔ Forall P l.
Proof.
  rewrite forallb_forall, Forall_forall.
  split; intros Hl x Hx.
  - apply list_elem_of_In, Hl in Hx. by apply bool_decide_eq_true in Hx.
  - apply bool_decide_eq_true, Hl. by apply list_elem_of_In.
Qed.

Lemma existsb_bool_decide {A} (P : A → Prop) `{∀ x, Decision (P x)} (l : list A) :
  existsb (λ x, bool_decide (P x)) l = true ↔ Exists P l.
Proof.
  rewrite existsb_exists, Exists_exists.
  split; intros (x & Hx & HP); exists x.
  - split; [by apply list_elem_of_In |]. by apply bool_decide_eq_true in HP.
  - split; [by apply list_elem_of_In |]. by apply bool_decide_eq_true.
Qed.

(** C8.  The aggregate status of a job is COMPLETED exactly when all its
    batches are COMPLETED; otherwise it is TRIGGERED exactly when some batch
    is TRIGGERED; otherwise it is YET_TO_START. *)
Theorem get_overall_status_rule (j : IngestionJob) :
  let all_completed := Forall (λ b, status b = COMPLETED) (batches j) in
  let any_triggered := Exists (λ b, status b = TRIGGERED) (batches j) in
  (get_overall_status j = COMPLETED ↔ all_completed) ∧
  (get_overall_status j = TRIGGERED ↔ ¬ all_completed ∧ any_triggered) ∧
  (get_overall_status j = YET_TO_START ↔ ¬ all_completed ∧ ¬ any_triggered).
Proof.
  intros all_completed any_triggered. unfold get_overall_status.
  assert (Hall : forallb (λ s, bool_decide (s = COMPLETED)) (status <$> batches j) = true
                 ↔ all_completed).
  { rewrite forallb_bool_decide. unfold all_completed. by rewrite Forall_fmap. }
  assert (Hany : existsb (λ s, bool_decide (s = TRIGGERED)) (status <$> batches j) = true
                 ↔ any_triggered).
  { rewrite existsb_bool_decide. unfold any_triggered.
    rewrite Exists_fmap. done. }
  destruct (forallb _ _) eqn:Ea.
  - assert all_completed by (by apply Hall). intuition congruence.
  - assert (¬ all_completed) by (intros ?%Hall; done).
    destruct (existsb _ _) eqn:Ee.
    + assert any_triggered by (by apply Hany). intuition congruence.
    + assert (¬ any_triggered) by (intros ?%Hany; done). intuition congruence.
Qed.

(** ** Batch construction *)

Lemma range_from_length fuel i stop :
  (stop - i ≤ fuel)%nat →
  length (range_from fuel i stop 3) = ((stop - i + 2) / 3)%nat.
Proof.
  revert i. induction fuel as [|fuel IH]; intros i Hfuel; cbn [range_from].
  - replace (stop - i)%nat with 0%nat by lia. done.
  - destruct (Nat.ltb_spec i stop) as [Hlt|Hge]; cbn [length].
    + rewrite IH by lia. zify. Z.to_euclidean_division_equations. lia.
    + replace (stop - i)%nat with 0%nat by lia. done.
Qed.

Lemma range_from_bound fuel i stop s :
  s ∈ range_from fuel i stop 3 → (i ≤ s < stop)%nat.
Proof.
  revert i. induction fuel as [|fuel IH]; intros i; simpl.
  - by intros ?%elem_of_nil.
  - destruct (Nat.ltb_spec i stop) as [Hlt|Hge].
    + intros [->|Hin%IH]%elem_of_cons; lia.
    + by intros ?%elem_of_nil.
Qed.

Lemma range_from_slices {A} (l : list A) fuel i :
  (length l - i ≤ fuel)%nat →
  concat ((λ s, slice s (s + 3) l) <$> range_from fuel i (length l) 3) = drop i l.
Proof.
  revert i. induction fuel as [|fuel IH]; intros i Hfuel; simpl.
  - symmetry. apply drop_ge. lia.
  - destruct (Nat.ltb_spec i (length l)) as [Hlt|Hge]; simpl.
    + rewrite IH by lia. unfold slice.
      replace (i + 3 - i)%nat with 3%nat by lia.
      rewrite <- (drop_drop l 3 i). apply take_drop.
    + symmetry. apply drop_ge. lia.
Qed.

Lemma slice_length {A} (l : list A) s :
  (s < length l)%nat → (1 ≤ length (slice s (s + 3) l) ≤ 3)%nat.
Proof.
  intros Hs. unfold slice. rewrite length_take, length_drop. lia.
Qed.

Lemma create_batches_ids u l :
  ids <$> _create_batches u l = (λ s, slice s (s + 3) l) <$> range0 (length l) 3.
Proof.
  unfold _create_batches. rewrite fmap_imap. by rewrite <- imap_const.
Qed.

Lemma create_batches_status u l :
  Forall (λ b, status b = YET_TO_START) (_create_batches u l).
Proof.
  apply Forall_forall. intros b (k & s & -> & _)%elem_of_lookup_imap. done.
Qed.

(** The shape of the batches of a new job, for any identifier list. *)
Lemma create_batches_shape u l :
  let bs := _create_batches u l in
  length bs = ((length l + 2) / 3)%nat ∧
  Forall (λ b, (1 ≤ length (ids b) ≤ 3)%nat) bs ∧
  concat (ids <$> bs) = l.
Proof.
  simpl. split; [|split].
  - unfold _create_batches, range0. rewrite length_imap, range_from_length by lia.
    by rewrite Nat.sub_0_r.
  - apply Forall_forall. intros b (k & s & -> & Hs)%elem_of_lookup_imap. simpl.
    apply slice_length. eapply range_from_bound, list_elem_of_lookup_2, Hs.
  - rewrite create_batches_ids. unfold range0. by rewrite range_from_slices by lia.
Qed.

Lemma find_invalid_none l :
  Forall (λ id, 1 ≤ id ≤ 10 ^ 9 + 7) l →
  List.find (λ id, negb (id_in_range id)) l = None.
Proof.
  induction 1 as [|x l Hx _ IH]; simpl; [done|].
  unfold id_in_range at 1.
  destruct (Z.leb_spec 1 x); [|lia]. destruct (Z.leb_spec x (10 ^ 9 + 7)); [|lia].
  simpl. exact IH.
Qed.

Lemma find_invalid_first pre x post :
  Forall (λ id, 1 ≤ id ≤ 10 ^ 9 + 7) pre → ¬ (1 ≤ x ≤ 10 ^ 9 + 7) →
  List.find (λ id, negb (id_in_range id)) (pre ++ x :: post) = Some x.
Proof.
  intros Hpre Hx. induction Hpre as [|y l Hy _ IH]; simpl.
  - unfold id_in_range.
    destruct (Z.leb_spec 1 x); [|done]. destruct (Z.leb_spec x (10 ^ 9 + 7)); [lia|done].
  - unfold id_in_range at 1.
    destruct (Z.leb_spec 1 y); [|lia]. destruct (Z.leb_spec y (10 ^ 9 + 7)); [|lia].
    simpl. exact IH.
Qed.

(** C2.  Ingesting a list of [n] identifiers that are all in range builds
    one job, persisted and enqueued, with ceil(n/3) batches (the number [k]
    with [n <= 3k < n + 3], that is [(n + 2) / 3]); every batch carries at
    most 3 identifiers (and at least one), and the batches' identifier lists
    concatenated in order give back the input list. *)
Theorem job_construction_batches (u : nat → string) (now : Q)
    (request : IngestionRequest) (st : State) :
  Forall (λ id, 1 ≤ id ≤ 10 ^ 9 + 7) (req_ids request) →
  ∃ job,
    ingest_data u now request st =
      (OK (u O),
       {| redis := <[ingestion_key (u O) := to_dict job]> (redis st);
          job_queue := job_queue st ++ [(get_value (req_priority request), job)];
          last_processed_time := last_processed_time st;
          sched := sched st |}) ∧
    job_ids job = req_ids request ∧
    let n := length (req_ids request) in
    let k := length (batches job) in
    k = ((n + 2) / 3)%nat ∧ (n ≤ 3 * k < n + 3)%nat ∧
    Forall (λ b, (1 ≤ length (ids b) ≤ 3)%nat) (batches job) ∧
    concat (ids <$> batches job) = req_ids request.
Proof.
  intros Hvalid.
  exists (new_IngestionJob u (u O) (req_ids request) (req_priority request) now).
  split; [|split; [done|]].
  - unfold ingest_data. by rewrite find_invalid_none.
  - simpl. destruct (create_batches_shape u (req_ids request)) as (Hlen & Hsz & Hcat).
    repeat split; try done.
    + rewrite Hlen. zify. Z.to_euclidean_division_equations. lia.
    + rewrite Hlen. zify. Z.to_euclidean_division_equations. lia.
Qed.

Lemma job_construction_batches_witness :
  let request := mkRequest [1; 2; 3; 4; 5; 6; 7] HIGH in
  Forall (λ id, 1 ≤ id ≤ 10 ^ 9 + 7) (req_ids request) ∧
  ∃ job,
    ingest_data pretty 0%Q request init =
      (OK "0",
       {| redis := <[ingestion_key "0" := to_dict job]> ∅;
          job_queue := [(0, job)];
          last_processed_time := 0%Q;
          sched := AtTop |}) ∧
    length (batches job) = 3%nat ∧
    concat (ids <$> batches job) = [1; 2; 3; 4; 5; 6; 7].
Proof.
  intros request.
  assert (Hvalid : Forall (λ id, 1 ≤ id ≤ 10 ^ 9 + 7) (req_ids request))
    by (repeat constructor; lia).
  split; [exact Hvalid|].
  destruct (job_construction_batches pretty 0%Q request init Hvalid)
    as (job & Hrun & _ & Hlen & _ & _ & Hcat).
  exists job. split; [exact Hrun|]. split; [exact Hlen | exact Hcat].
Defined.

(** ** Validation and status query *)

(** C7.  When some identifier is outside [1, 10^9+7], [ingest_data] raises
    the 400 error whose message names the first such identifier, and leaves
    the state as it was: no record is written and nothing is put on the
    queue.  When every identifier is in the interval, bounds included, it
    raises nothing and returns the new ingestion identifier. *)
Theorem ingest_validation (u : nat → string) (now : Q) (request : IngestionRequest)
    (st : State) :
  (∀ pre x post,
     req_ids request = pre ++ x :: post →
     Forall (λ id, 1 ≤ id ≤ 10 ^ 9 + 7) pre → ¬ (1 ≤ x ≤ 10 ^ 9 + 7) →
     ingest_data u now request st =
       (HTTPException 400
          ("Invalid ID: " +:+ pretty x +:+ ". Must be between 1 and 10^9+7"), st)) ∧
  (Forall (λ id, 1 ≤ id ≤ 10 ^ 9 + 7) (req_ids request) →
     (ingest_data u now request st).1 = OK (u O)).
Proof.
  split.
  - intros pre x post Hids Hpre Hx. unfold ingest_data.
    rewrite Hids, find_invalid_first by done. done.
  - intros Hvalid. unfold ingest_data. by rewrite find_invalid_none.
Qed.

Lemma ingest_validation_witness :
  ingest_data pretty 7%Q (mkRequest [1; 10 ^ 9 + 7; 10 ^ 9 + 8; 0] LOW) init =
    (HTTPException 400 "Invalid ID: 1000000008. Must be between 1 and 10^9+7", init) ∧
  (ingest_data pretty 7%Q (mkRequest [1; 10 ^ 9 + 7] LOW) init).1 = OK "0".
Proof.
  split.
  - apply (proj1 (ingest_validation pretty 7%Q
                    (mkRequest [1; 10 ^ 9 + 7; 10 ^ 9 + 8; 0] LOW) init)
             [1; 10 ^ 9 + 7] (10 ^ 9 + 8) [0]).
    + reflexivity.
    + repeat constructor; lia.
    + lia.
  - refine (proj2 (ingest_validation pretty 7%Q (mkRequest [1; 10 ^ 9 + 7] LOW) init) _).
    repeat constructor; lia.
Defined.

(** C9.  [get_status] returns the stored record as it is when there is one
    under the identifier's key, raises 404 exactly when there is none, and
    leaves the state unchanged in both cases. *)
Theorem get_status_verbatim (iid : string) (st : State) :
  (∀ r, redis st !! ingestion_key iid = Some r → (get_status iid st).1 = OK r) ∧
  (redis st !! ingestion_key iid = None ↔
     ∃ detail, (get_status iid st).1 = HTTPException 404 detail) ∧
  (get_status iid st).2 = st.
Proof.
  unfold get_status.
  destruct (redis st !! ingestion_key iid) as [r|] eqn:Hr; simpl.
  - split; [|split]; [by intros ? [= ->] | | done].
    split; [done | by intros [? ?]].
  - split; [|split]; [done | | done].
    split; [by eexists | done].
Qed.

Lemma get_status_verbatim_witness :
  let r := {| r_ingestion_id := "j"; r_status := YET_TO_START; r_batches := [] |} in
  let st := {| redis := {[ ingestion_key "j" := r ]}; job_queue := [];
               last_processed_time := 0%Q; sched := AtTop |} in
  (get_status "j" st).1 = OK r ∧
  (∃ detail, (get_status "nonexistent" st).1 = HTTPException 404 detail) ∧
  (get_status "j" st).2 = st.
Proof.
  intros r st. split; [|split].
  - apply (proj1 (get_status_verbatim "j" st)). reflexivity.
  - apply (proj1 (proj2 (get_status_verbatim "nonexistent" st))). reflexivity.
  - apply (proj2 (proj2 (get_status_verbatim "j" st))).
Defined.

(** ** Queue order *)

Lemma Qltb_lt x y : Qltb x y = true ↔ (x < y)%Q.
Proof. unfold Qltb, Qlt. apply Z.ltb_lt. Qed.

Lemma Qleb_le x y : Qleb x y = true ↔ (x <= y)%Q.
Proof. unfold Qleb, Qle. apply Z.leb_le. Qed.

Lemma entry_lt_before a b :
  entry_lt (queue_entry a) (queue_entry b) = true ↔ job_before a b.
Proof.
  unfold entry_lt, job_lt, job_before, entry_before, queue_entry. simpl.
  destruct (Z.eqb_spec (get_value (priority a)) (get_value (priority b))) as [Heq|Hne];
    simpl.
  - rewrite Qltb_lt. intuition lia.
  - rewrite Z.ltb_lt. intuition lia.
Qed.

Lemma job_before_irrefl a : ¬ job_before a a.
Proof.
  unfold job_before, entry_before. simpl. intros [?|[_ Hlt]]; [lia|].
  by apply Qlt_irrefl in Hlt.
Qed.

Lemma job_before_asym a b : job_before a b → ¬ job_before b a.
Proof.
  unfold job_before, entry_before. simpl. intros [?|[? ?]] [?|[? ?]]; try lia. lra.
Qed.

(** The order is a strict weak order: what is before [c] is before [b] or
    has [b] before [c]. *)
Lemma job_before_cotrans a b c : job_before a c → job_before a b ∨ job_before b c.
Proof.
  unfold job_before, entry_before. simpl. intros [Hlt|[Heq Hlt]].
  - destruct (Z.lt_trichotomy (get_value (priority a)) (get_value (priority b)))
      as [?|[?|?]]; [by left; left | right; left; lia | right; left; lia].
  - destruct (Z.lt_trichotomy (get_value (priority a)) (get_value (priority b)))
      as [?|[?|?]]; [by left; left | | right; left; lia].
    destruct (Qlt_le_dec (created_time a) (created_time b)) as [?|?].
    + left. right. done.
    + right. right. split; [lia | lra].
Qed.

Lemma pq_get_None q : pq_get q = None ↔ q = [].
Proof.
  destruct q as [|x q]; simpl; [done|].
  destruct (pq_get q) as [[m rest]|]; [|done].
  by destruct (entry_lt m x).
Qed.

Lemma pq_get_perm q e rest :
  pq_get q = Some (e, rest) → q ≡ₚ e :: rest ∧ rest `sublist_of` q.
Proof.
  revert e rest. induction q as [|x q IH]; intros e rest; simpl; [done|].
  destruct (pq_get q) as [[m rest']|] eqn:Hq.
  - destruct (IH m rest' eq_refl) as [Hperm Hsub].
    destruct (entry_lt m x); intros [= <- <-].
    + split; [by rewrite Hperm; apply Permutation_swap | by apply sublist_skip].
    + split; [done | by apply sublist_cons].
  - intros [= <- <-]. apply pq_get_None in Hq as ->.
    split; [done | apply sublist_nil_l].
Qed.

Lemma pq_get_min jobs e rest :
  pq_get (queue_entry <$> jobs) = Some (e, rest) →
  ∃ m, e = queue_entry m ∧ m ∈ jobs ∧ ∀ a, a ∈ jobs → ¬ job_before a m.
Proof.
  revert e rest. induction jobs as [|x jobs IH]; intros e rest; [done|].
  rewrite fmap_cons. cbn [pq_get].
  destruct (pq_get (queue_entry <$> jobs)) as [[m' rest']|] eqn:Hq.
  - destruct (IH m' rest' eq_refl) as (m & -> & Hm & Hmin).
    destruct (entry_lt (queue_entry m) (queue_entry x)) eqn:Hlt; intros [= <- <-].
    + apply entry_lt_before in Hlt.
      exists m. split; [done|]. split; [by right|].
      intros a [->|Ha]%elem_of_cons; [by apply job_before_asym | by apply Hmin].
    + exists x. split; [done|]. split; [by left|].
      intros a [->|Ha]%elem_of_cons; [apply job_before_irrefl|].
      intros [Ham|Hmx]%(job_before_cotrans _ m).
      * by apply (Hmin a).
      * apply entry_lt_before in Hmx. congruence.
  - intros [= <- <-]. apply pq_get_None, fmap_nil_inv in Hq as ->.
    exists x. split; [done|]. split; [by left|].
    intros a ->%list_elem_of_singleton. apply job_before_irrefl.
Qed.


Lemma queue_entry_wf q :
  Forall (λ e, e.1 = get_value (priority e.2)) q → q = queue_entry <$> q.*2.
Proof.
  induction 1 as [|[r j] q Hr _ IH]; [done|].
  simpl in Hr. subst r. rewrite !fmap_cons, <- IH. done.
Qed.

Lemma pq_get_least q e rest :
  Forall (λ e, e.1 = get_value (priority e.2)) q →
  pq_get q = Some (e, rest) →
  e ∈ q ∧ ∀ x, x ∈ q → ¬ entry_before x e.
Proof.
  intros Hwf Hget. rewrite (queue_entry_wf q Hwf) in Hget |- *.
  destruct (pq_get_min _ _ _ Hget) as (m & -> & Hm & Hmin).
  split; [by apply list_elem_of_fmap_2|].
  intros x (a & -> & Ha)%list_elem_of_fmap. by apply Hmin.
Qed.

Lemma pq_drain_sorted n q :
  Forall (λ e, e.1 = get_value (priority e.2)) q → length q = n →
  pq_drain n q ≡ₚ q ∧ StronglySorted (λ x y, ¬ entry_before y x) (pq_drain n q).
Proof.
  revert q. induction n as [|n IH]; intros q Hwf Hlen; cbn [pq_drain].
  - apply nil_length_inv in Hlen as ->. split; [done | constructor].
  - destruct (pq_get q) as [[e rest]|] eqn:Hget.
    2: { apply pq_get_None in Hget as ->. done. }
    destruct (pq_get_perm _ _ _ Hget) as [Hperm Hsub].
    destruct (pq_get_least _ _ _ Hwf Hget) as [_ Hmin].
    destruct (IH rest) as [Hp Hs].
    + rewrite Hperm in Hwf. by apply Forall_cons_1 in Hwf as [_ ?].
    + apply Permutation_length in Hperm. simpl in Hperm. lia.
    + split; [by rewrite Hp, Hperm|].
      constructor; [done|]. apply Forall_forall. intros y Hy.
      apply Hmin. rewrite Hperm. right. by rewrite <- Hp.
Qed.

(** C3.  The ranks are HIGH = 0 < MEDIUM = 1 < LOW = 2.  Whatever the arrival
    order of the jobs on the queue, [get] takes one entry out and leaves the
    others as they were; if job [a] has a smaller rank than job [b], or the
    same rank and an earlier creation time, the entry taken is not [b]'s,
    which stays on the queue.  Emptying the queue gives every entry once, in
    the order of (rank, creation time). *)
Theorem priority_queue_order (jobs : list IngestionJob) :
  let q := queue_entry <$> jobs in
  (get_value HIGH = 0 ∧ get_value MEDIUM = 1 ∧ get_value LOW = 2) ∧
  (pq_get q = None ↔ jobs = []) ∧
  (∀ e rest, pq_get q = Some (e, rest) →
     q ≡ₚ e :: rest ∧ rest `sublist_of` q ∧
     ∀ a b, a ∈ jobs → b ∈ jobs →
       get_value (priority a) < get_value (priority b) ∨
       (get_value (priority a) = get_value (priority b) ∧
        (created_time a < created_time b)%Q) →
       e ≠ queue_entry b ∧ queue_entry b ∈ rest) ∧
  pq_drain (length q) q ≡ₚ q ∧
  StronglySorted (λ x y, ¬ entry_before y x) (pq_drain (length q) q).
Proof.
  intros q. split; [done|]. split; [|split].
  - rewrite pq_get_None. unfold q. split; [apply fmap_nil_inv | by intros ->].
  - intros e rest Hget. destruct (pq_get_perm _ _ _ Hget) as [Hperm Hsub].
    split; [done|]. split; [done|]. intros a b Ha Hb Hab.
    destruct (pq_get_min _ _ _ Hget) as (m & -> & Hm & Hmin).
    assert (Hne : queue_entry m ≠ queue_entry b).
    { intros [= _ ->]. by apply (Hmin a). }
    split; [done|].
    assert (Hin : queue_entry b ∈ queue_entry m :: rest).
    { rewrite <- Hperm. by apply list_elem_of_fmap_2. }
    apply elem_of_cons in Hin as [Heq|Hin]; [by symmetry in Heq | done].
  - apply pq_drain_sorted; [|done].
    apply Forall_forall. by intros e (j & -> & _)%list_elem_of_fmap.
Qed.

Lemma priority_queue_order_witness :
  let J1 := mkJob "J1" [1; 2; 3] LOW 0%Q [] in
  let J2 := mkJob "J2" [4; 5; 6] HIGH 1%Q [] in
  let J3 := mkJob "J3" [7; 8; 9] MEDIUM 2%Q [] in
  let q := queue_entry <$> [J1; J2; J3] in
  pq_get q = Some (queue_entry J2, queue_entry <$> [J1; J3]) ∧
  pq_drain 3 q = queue_entry <$> [J2; J3; J1] ∧
  queue_entry J1 ∈ queue_entry <$> [J1; J3].
Proof.
  intros J1 J2 J3 q. split; [reflexivity|]. split; [reflexivity|].
  refine (proj2 (proj2 (proj2 (proj1 (proj2 (proj2 (priority_queue_order [J1; J2; J3])))
            (queue_entry J2) (queue_entry <$> [J1; J3]) _)) J2 J1 _ _ _)).
  - reflexivity.
  - apply elem_of_cons. right. apply elem_of_cons. by left.
  - apply elem_of_cons. by left.
  - left. simpl. lia.
Defined.

(** ** The database under [update_redis_status] *)

Lemma set_batch_status_None bid s bs :
  Forall (λ b, d_batch_id b ≠ bid) bs → set_batch_status bid s bs = None.
Proof.
  induction 1 as [|b bs Hb _ IH]; simpl; [done|].
  destruct (decide (d_batch_id b = bid)); [done|]. by rewrite IH.
Qed.

(** A successful inner loop rewrote the status of one element, the first one
    with the identifier. *)
Lemma set_batch_status_Some bid s bs bs' :
  set_batch_status bid s bs = Some bs' →
  ∃ i b, bs !! i = Some b ∧ d_batch_id b = bid ∧
         bs' = <[i := set_dict_status s b]> bs.
Proof.
  revert bs'. induction bs as [|b0 bs IH]; intros bs'; simpl; [done|].
  destruct (decide (d_batch_id b0 = bid)) as [Heq|Hne].
  - intros [= <-]. by exists 0%nat, b0.
  - destruct (set_batch_status bid s bs) as [bs0|]; [|done].
    intros [= <-]. destruct (IH bs0 eq_refl) as (i & b & Hi & Hb & ->).
    by exists (S i), b.
Qed.

Lemma set_batch_status_at bid s bs i b :
  bs !! i = Some b → d_batch_id b = bid →
  (∀ i' b', bs !! i' = Some b' → d_batch_id b' = bid → i' = i) →
  set_batch_status bid s bs = Some (<[i := set_dict_status s b]> bs).
Proof.
  intros Hi Hb Huniq.
  destruct (set_batch_status bid s bs) as [bs'|] eqn:Hset.
  - apply set_batch_status_Some in Hset as (i' & b' & Hi' & Hb' & ->).
    assert (i' = i) as -> by eauto. congruence.
  - exfalso. revert i Hi Huniq Hset.
    induction bs as [|b0 bs IH]; intros i Hi Huniq; simpl; [done|].
    destruct (decide (d_batch_id b0 = bid)); [done|].
    destruct i as [|i]; [simpl in Hi; congruence|].
    destruct (set_batch_status bid s bs) eqn:Hs; [done|]. intros _.
    apply (IH i Hi); [|done].
    intros i' b' Hi' Hb'. specialize (Huniq (S i') b' Hi' Hb'). lia.
Qed.

(** A successful [update_scan] either found no record for the batch and
    wrote nothing, or rewrote the batches of one record. *)
Lemma update_scan_Some keys batch db db' :
  update_scan keys batch db = Some db' →
  db' = db ∨
  ∃ k r bs, db !! k = Some r ∧
    set_batch_status (batch_id batch) (status batch) (r_batches r) = Some bs ∧
    db' = <[k := set_record_batches bs r]> db.
Proof.
  induction keys as [|key keys IH]; simpl.
  - intros [= <-]. by left.
  - destruct (db !! key) as [r|] eqn:Hr; [|done].
    destruct (set_batch_status _ _ _) as [bs|] eqn:Hset; [|exact IH].
    intros [= <-]. right. by exists key, r, bs.
Qed.

(** With unique batch identifiers, the scan of a list of stored keys that
    has the key of the record holding the batch rewrites that record. *)
Lemma update_scan_found keys batch db k r i b :
  unique_bids db → Forall (λ k', is_Some (db !! k')) keys → k ∈ keys →
  db !! k = Some r → r_batches r !! i = Some b → d_batch_id b = batch_id batch →
  update_scan keys batch db =
    Some (<[k := set_record_batches
                   (<[i := set_dict_status (status batch) b]> (r_batches r)) r]> db).
Proof.
  intros Huniq Hkeys Hk Hr Hi Hb.
  induction Hkeys as [|key keys [r0 Hr0] _ IH]; [by apply elem_of_nil in Hk|].
  simpl. rewrite Hr0.
  destruct (decide (key = k)) as [->|Hne].
  - assert (r0 = r) as -> by congruence.
    rewrite (set_batch_status_at _ _ _ i b); [done..|].
    intros i' b' Hi' Hb'.
    by destruct (Huniq k k r r i' i b' b) as [_ ?]; [done..|congruence|].
  - rewrite set_batch_status_None.
    + apply IH. by apply elem_of_cons in Hk as [->|?].
    + apply Forall_forall. intros b0 [i0 Hi0]%list_elem_of_lookup Hb0.
      by destruct (Huniq key k r0 r i0 i b0 b) as [? _]; [done..|congruence|].
Qed.

Lemma stored_batch_ids_spec db x :
  x ∈ stored_batch_ids db ↔
  ∃ k r i b, db !! k = Some r ∧ r_batches r !! i = Some b ∧ d_batch_id b = x.
Proof.
  unfold stored_batch_ids. rewrite list_elem_of_bind. split.
  - intros ([k r] & (b & -> & [i Hi]%list_elem_of_lookup)%list_elem_of_fmap
            & Hkr%elem_of_map_to_list).
    by exists k, r, i, b.
  - intros (k & r & i & b & Hr & Hi & <-). exists (k, r). split.
    + apply list_elem_of_fmap. exists b. split; [done|].
      by apply list_elem_of_lookup_2 in Hi.
    + by apply elem_of_map_to_list.
Qed.

Lemma unique_bids_alt db :
  unique_bids db ↔
  ∀ k1 k2 r1 r2 i1 i2 x,
    db !! k1 = Some r1 → db !! k2 = Some r2 →
    record_bids r1 !! i1 = Some x → record_bids r2 !! i2 = Some x →
    k1 = k2 ∧ i1 = i2.
Proof.
  unfold unique_bids, record_bids. split.
  - intros H k1 k2 r1 r2 i1 i2 x Hr1 Hr2 Hx1 Hx2.
    rewrite list_lookup_fmap in Hx1, Hx2.
    destruct (r_batches r1 !! i1) as [b1|] eqn:Hb1; [|done].
    destruct (r_batches r2 !! i2) as [b2|] eqn:Hb2; [|done].
    simpl in *. eapply (H k1 k2); eauto. congruence.
  - intros H k1 k2 r1 r2 i1 i2 b1 b2 Hr1 Hr2 Hb1 Hb2 Heq.
    eapply (H k1 k2 r1 r2 i1 i2 (d_batch_id b1)); eauto.
    + by rewrite list_lookup_fmap, Hb1.
    + by rewrite list_lookup_fmap, Hb2, Heq.
Qed.

(** Rewriting a record without touching its batch identifiers keeps them
    unique. *)
Lemma unique_bids_rewrite db k r r' :
  unique_bids db → db !! k = Some r → record_bids r' = record_bids r →
  unique_bids (<[k := r']> db).
Proof.
  rewrite !unique_bids_alt. intros Huniq Hr Hbids.
  assert (Hold : ∀ k0 r0, <[k := r']> db !! k0 = Some r0 →
            ∃ r1, db !! k0 = Some r1 ∧ record_bids r0 = record_bids r1).
  { intros k0 r0 [[<- <-]|[? ?]]%lookup_insert_Some; eauto. }
  intros k1 k2 r1 r2 i1 i2 x (r1' & Hr1 & ->)%Hold (r2' & Hr2 & ->)%Hold Hx1 Hx2.
  eauto.
Qed.

(** A new record whose batch identifiers are distinct and not stored yet
    keeps them unique. *)
Lemma unique_bids_insert db k r :
  unique_bids db → db !! k = None → NoDup (record_bids r) →
  Forall (λ x, x ∉ stored_batch_ids db) (record_bids r) →
  unique_bids (<[k := r]> db).
Proof.
  rewrite !unique_bids_alt. intros Huniq Hk Hnd Hfresh.
  assert (Hnew : ∀ k0 r0 i0 i x, db !! k0 = Some r0 →
            record_bids r0 !! i0 = Some x → record_bids r !! i = Some x → False).
  { intros k0 r0 i0 i x Hr0 Hx0 Hx.
    apply list_elem_of_lookup_2 in Hx.
    rewrite Forall_forall in Hfresh. apply (Hfresh x Hx).
    unfold record_bids in Hx0. rewrite list_lookup_fmap in Hx0.
    destruct (r_batches r0 !! i0) as [b0|] eqn:Hb0; [|done].
    apply stored_batch_ids_spec. exists k0, r0, i0, b0. simpl in Hx0.
    split; [done|]. split; [done|]. congruence. }
  intros k1 k2 r1 r2 i1 i2 x
    [[<- <-]|[Hne1 Hr1]]%lookup_insert_Some [[<- <-]|[Hne2 Hr2]]%lookup_insert_Some
    Hx1 Hx2.
  - split; [done|]. eapply NoDup_lookup; eauto.
  - exfalso. eauto.
  - exfalso. eauto.
  - eauto.
Qed.

(** ** Invariant of the reachable states *)

Lemma NoDup_fmap_eq {A B} (f : A → B) (l : list A) x y :
  NoDup (f <$> l) → x ∈ l → y ∈ l → f x = f y → x = y.
Proof.
  intros Hnd [i Hi]%list_elem_of_lookup [j Hj]%list_elem_of_lookup Hxy.
  assert (i = j) as ->; [|congruence].
  eapply (NoDup_lookup _ i j (f x) Hnd).
  - by rewrite list_lookup_fmap, Hi.
  - by rewrite list_lookup_fmap, Hj, Hxy.
Qed.

Lemma expected_status_trigger i k b :
  status b = expected_status i false k →
  status (if decide (k = i) then with_status TRIGGERED b else b) =
    expected_status i true k.
Proof.
  unfold expected_status. simpl.
  repeat (case_decide || case_bool_decide); simpl; intros; subst; done || lia.
Qed.

Lemma expected_status_complete i k b :
  status b = expected_status i true k →
  status (if decide (k = i) then with_status COMPLETED b else b) =
    expected_status (S i) false k.
Proof.
  unfold expected_status. simpl.
  repeat (case_decide || case_bool_decide); simpl; intros; subst; done || lia.
Qed.

Lemma statuses_at_insert (f : Batch → Batch) i j b (w w' : bool) i' :
  batches j !! i = Some b →
  (∀ k bk, status bk = expected_status i w k →
           status (if decide (k = i) then f bk else bk) = expected_status i' w' k) →
  statuses_at i w j →
  statuses_at i' w' (with_batches (<[i := f b]> (batches j)) j).
Proof.
  intros Hb Hf Hst k bk. simpl.
  intros [(<- & <- & _)|[Hne Hk]]%list_lookup_insert_Some.
  - specialize (Hf i b (Hst i b Hb)). by rewrite decide_True in Hf.
  - specialize (Hf k bk (Hst k bk Hk)). by rewrite decide_False in Hf.
Qed.

Lemma record_bids_with_status (s : BatchStatus) (bs : list Batch) i b r :
  bs !! i = Some b → r_batches r = Batch_to_dict <$> bs →
  record_bids (set_record_batches (Batch_to_dict <$> <[i := with_status s b]> bs) r) =
    record_bids r.
Proof.
  intros Hb Hr. unfold record_bids. simpl. rewrite Hr, <- !list_fmap_compose.
  rewrite list_fmap_insert. apply list_insert_id.
  by rewrite list_lookup_fmap, Hb.
Qed.

Lemma Inv_set_sched st sc :
  Inv st → current_job (sched st) = current_job sc → sched_ok sc →
  Inv (set_sched sc st).
Proof.
  intros [HU HM HK HQ HS] Hcur Hok.
  split; unfold mem_jobs in *; simpl; rewrite <- ?Hcur; done.
Qed.

(** The scheduler writes a status into batch [i] of the job it dispatches,
    in memory and in the job's record. *)
Lemma Inv_dispatch st j i b s r sc :
  Inv st → current_job (sched st) = [j] →
  batches j !! i = Some b → redis st !! job_key j = Some r →
  current_job sc = [with_batches (<[i := with_status s b]> (batches j)) j] →
  sched_ok sc →
  Inv {| redis :=
           <[job_key j :=
               set_record_batches
                 (Batch_to_dict <$> <[i := with_status s b]> (batches j)) r]> (redis st);
         job_queue := job_queue st;
         last_processed_time := last_processed_time st;
         sched := sc |}.
Proof.
  intros [HU HM HK HQ HS] Hcur Hb Hr Hsc Hok.
  unfold mem_jobs in *. rewrite Hcur in HM, HK.
  assert (Hmj : mirrored (redis st) j).
  { rewrite Forall_app, Forall_singleton in HM. tauto. }
  destruct Hmj as (r0 & Hr0 & Hbs). assert (r0 = r) as -> by congruence.
  split; unfold mem_jobs; simpl; rewrite ?Hsc; try done.
  - eapply unique_bids_rewrite; [done..|]. by apply record_bids_with_status.
  - rewrite Forall_app, Forall_singleton in HM |- *. destruct HM as [HMq _]. split.
    + rewrite Forall_forall in HMq |- *. intros jq Hjq.
      destruct (HMq jq Hjq) as (rq & Hrq & Hbq). exists rq. split; [|done].
      rewrite lookup_insert_ne; [done|]. intros Heq.
      rewrite fmap_app in HK. apply NoDup_app in HK as (_ & Hdisj & _).
      apply (Hdisj (job_key jq)).
      * by apply list_elem_of_fmap_2.
      * rewrite <- Heq. apply list_elem_of_fmap_2. by apply list_elem_of_singleton.
    + eexists. split; [apply lookup_insert_eq | done].
  - by rewrite fmap_app in HK |- *.
Qed.

(** [get] moves a job from the queue to the scheduler. *)
Lemma Inv_pop st e rest :
  Inv st → current_job (sched st) = [] → pq_get (job_queue st) = Some (e, rest) →
  Inv {| redis := redis st; job_queue := rest;
         last_processed_time := last_processed_time st;
         sched := NextBatch e.2 0 |}.
Proof.
  intros [HU HM HK HQ HS] Hcur [Hperm _]%pq_get_perm.
  unfold mem_jobs in *. rewrite Hcur, app_nil_r in HM, HK.
  assert (Hjobs : rest.*2 ++ [e.2] ≡ₚ (job_queue st).*2).
  { rewrite Hperm, fmap_cons. by rewrite <- Permutation_cons_append. }
  rewrite Hperm in HQ. apply Forall_cons_1 in HQ as [HQe HQ].
  split; unfold mem_jobs; simpl; try done.
  - by rewrite Hjobs.
  - by rewrite Hjobs.
  - intros k b Hk. rewrite Forall_forall in HQe.
    rewrite (HQe b) by (by eapply list_elem_of_lookup_2).
    unfold expected_status. by rewrite decide_False by lia.
Qed.

(** The scheduler leaves the [for] loop and drops its job. *)
Lemma Inv_finish st now j :
  Inv st → current_job (sched st) = [j] →
  Inv {| redis := redis st; job_queue := job_queue st;
         last_processed_time := now; sched := AtTop |}.
Proof.
  intros [HU HM HK HQ HS] Hcur. unfold mem_jobs in *. rewrite Hcur in HM, HK.
  rewrite Forall_app in HM. rewrite fmap_app in HK. apply NoDup_app in HK as (? & _ & _).
  split; unfold mem_jobs; simpl; rewrite ?app_nil_r; try done. tauto.
Qed.

Lemma forallb_find_invalid l :
  forallb id_in_range l = true → List.find (λ id, negb (id_in_range id)) l = None.
Proof.
  induction l as [|x l IH]; simpl; [done|].
  intros [-> Hl]%andb_true_iff. simpl. by apply IH.
Qed.

Lemma find_forallb_invalid l :
  forallb id_in_range l = false → ∃ x, List.find (λ id, negb (id_in_range id)) l = Some x.
Proof.
  induction l as [|x l IH]; simpl; [done|].
  destruct (id_in_range x); simpl; [exact IH | by exists x].
Qed.

(** A successful ingestion adds a record and a queue entry. *)
Lemma Inv_ingest u now request st :
  Inv st → forallb id_in_range (req_ids request) = true →
  fresh_uuids u request (redis st) →
  Inv (ingest_data u now request st).2.
Proof.
  intros [HU HM HK HQ HS] Hvalid (Hkey & Hnd & Hfresh).
  unfold ingest_data. rewrite forallb_find_invalid by done.
  set (job := new_IngestionJob u (u O) (req_ids request) (req_priority request) now).
  apply not_elem_of_dom in Hkey.
  assert (Hbids : record_bids (to_dict job) = batch_id <$> batches job).
  { unfold record_bids. simpl. by rewrite <- list_fmap_compose. }
  assert (Hold : ∀ j, j ∈ mem_jobs st → job_key j ≠ ingestion_key (u O)).
  { intros j Hj Heq. rewrite Forall_forall in HM.
    destruct (HM j Hj) as (r & Hr & _). congruence. }
  assert (Hmem : (job_queue st ++ [(get_value (req_priority request), job)]).*2
                   ++ current_job (sched st) ≡ₚ job :: mem_jobs st).
  { unfold mem_jobs. rewrite fmap_app, <- app_assoc. simpl.
    symmetry. apply Permutation_middle. }
  split; unfold mem_jobs; simpl; unfold pq_put.
  - apply unique_bids_insert; [done..| |]; by rewrite Hbids.
  - rewrite Hmem. constructor.
    + eexists. split; [apply lookup_insert_eq | done].
    + rewrite Forall_forall in HM |- *. intros j Hj.
      destruct (HM j Hj) as (r & Hr & Hbs). exists r. split; [|done].
      rewrite lookup_insert_ne; [done|]. intros Heq. by apply (Hold j).
  - rewrite Hmem, fmap_cons. constructor; [|done].
    intros (j & Hj & Hin)%list_elem_of_fmap. by apply (Hold j).
  - apply Forall_app. split; [done|]. apply Forall_singleton. simpl.
    apply create_batches_status.
  - done.
Qed.

(** ** One step keeps every status moving forward *)

Lemma forward_refl s : forward s s.
Proof. by left. Qed.

Lemma persisted_forward_refl db : persisted_forward db db.
Proof.
  intros k r Hr. exists r. split; [done|]. split; [done|].
  intros i b b' Hb Hb'. assert (b' = b) as -> by congruence.
  split; [done | apply forward_refl].
Qed.

Lemma persisted_forward_insert db k r :
  db !! k = None → persisted_forward db (<[k := r]> db).
Proof.
  intros Hk k0 r0 Hr0. exists r0.
  rewrite lookup_insert_ne by congruence. split; [done|]. split; [done|].
  intros i b b' Hb Hb'. assert (b' = b) as -> by congruence.
  split; [done | apply forward_refl].
Qed.

Lemma persisted_forward_write db k r bs i b0 s :
  db !! k = Some r → r_batches r = Batch_to_dict <$> bs →
  bs !! i = Some b0 → next_status (status b0) = Some s →
  persisted_forward db
    (<[k := set_record_batches (Batch_to_dict <$> <[i := with_status s b0]> bs) r]> db).
Proof.
  intros Hr Hbs Hb0 Hs k1 r1 Hr1.
  destruct (decide (k = k1)) as [<-|Hne].
  - rewrite lookup_insert_eq. eexists. split; [done|].
    assert (r1 = r) as -> by congruence. simpl.
    split; [by rewrite Hbs, !length_fmap, length_insert|].
    intros i1 b b'. rewrite Hbs, !list_lookup_fmap.
    destruct (decide (i = i1)) as [<-|Hi].
    + rewrite list_lookup_insert_eq by (by eapply lookup_lt_Some).
      rewrite Hb0. simpl. intros [= <-] [= <-]. simpl. split; [done | by right].
    + rewrite list_lookup_insert_ne by done. intros -> [= <-].
      split; [done | apply forward_refl].
  - rewrite lookup_insert_ne by done. by apply persisted_forward_refl.
Qed.

Lemma memory_forward_sub st st' :
  Inv st → (∀ j, j ∈ mem_jobs st' → j ∈ mem_jobs st) → memory_forward st st'.
Proof.
  intros [_ _ HK _ _] Hsub j j' Hj Hj' Hid i b b' Hb Hb'.
  assert (j = j') as <-.
  { eapply (NoDup_fmap_eq job_key); eauto. unfold job_key. by rewrite Hid. }
  assert (b' = b) as -> by congruence. split; [done | apply forward_refl].
Qed.

Lemma memory_forward_ingest st st' job :
  Inv st → redis st !! job_key job = None →
  mem_jobs st' ≡ₚ job :: mem_jobs st → memory_forward st st'.
Proof.
  intros HI Hkey Hmem j j' Hj Hj' Hid.
  rewrite Hmem in Hj'. apply elem_of_cons in Hj' as [->|Hj'].
  - exfalso. destruct HI as [_ HM _ _ _]. rewrite Forall_forall in HM.
    destruct (HM j Hj) as (r & Hr & _).
    unfold job_key in Hkey, Hr. rewrite Hid in Hr. congruence.
  - exact (memory_forward_sub st st HI (λ _ H, H) j j' Hj Hj' Hid).
Qed.

Lemma memory_forward_write st st' j0 i b0 s :
  Inv st → current_job (sched st) = [j0] →
  batches j0 !! i = Some b0 → next_status (status b0) = Some s →
  job_queue st' = job_queue st →
  current_job (sched st') = [with_batches (<[i := with_status s b0]> (batches j0)) j0] →
  memory_forward st st'.
Proof.
  intros HI Hcur Hb0 Hs Hq Hcur' j j' Hj Hj' Hid.
  unfold mem_jobs in Hj'. rewrite Hq, Hcur' in Hj'.
  apply elem_of_app in Hj' as [Hj'|Hj'];
    [|apply list_elem_of_singleton in Hj' as ->].
  - assert (Hj0 : j' ∈ mem_jobs st) by (apply elem_of_app; by left).
    exact (memory_forward_sub st st HI (λ _ H, H) j j' Hj Hj0 Hid).
  - assert (j = j0) as ->.
    { destruct HI as [_ _ HK _ _]. eapply (NoDup_fmap_eq job_key); eauto.
      - unfold mem_jobs. rewrite Hcur. apply elem_of_app. right.
        by apply list_elem_of_singleton.
      - unfold job_key. by rewrite Hid. }
    intros k b b' Hb. simpl.
    intros [(<- & <- & _)|[Hne Hk]]%list_lookup_insert_Some.
    + assert (b = b0) as -> by congruence. simpl. split; [done | by right].
    + assert (b' = b) as -> by congruence. split; [done | apply forward_refl].
Qed.

Lemma born_pending_same db : born_pending db db.
Proof. intros k r Hk Hr. congruence. Qed.

Lemma born_pending_rewrite db k r r' : db !! k = Some r → born_pending db (<[k := r']> db).
Proof.
  intros Hr k0 r0 Hk0 Hr0. rewrite lookup_insert_ne in Hr0 by congruence. congruence.
Qed.

Lemma keys_of_spec db k : k ∈ keys_of db ↔ is_Some (db !! k).
Proof.
  unfold keys_of. rewrite list_elem_of_fmap. split.
  - intros ([k' r] & -> & Hkr%elem_of_map_to_list). by exists r.
  - intros [r Hr]. exists (k, r). split; [done|]. by apply elem_of_map_to_list.
Qed.

Lemma step_ok_quiet st st' :
  Inv st → Inv st' → redis st' = redis st →
  (∀ j, j ∈ mem_jobs st' → j ∈ mem_jobs st) → step_ok st st'.
Proof.
  intros HI HI' Hdb Hsub. split; [done|]. rewrite Hdb.
  split; [apply persisted_forward_refl|].
  split; [by apply memory_forward_sub | apply born_pending_same].
Qed.

Lemma Inv_not_backoff st w : Inv st → sched st ≠ Backoff w.
Proof. intros [_ _ _ _ HS] Heq. by rewrite Heq in HS. Qed.

Section Scheduler.

Variable scan : gmap string JobRecord → list string.

(** [keys] enumerates the stored keys, all of them and nothing else. *)
Hypothesis scan_spec : ∀ db k, k ∈ scan db ↔ is_Some (db !! k).

(** Persisting a status of batch [i] of a job whose record mirrors it
    succeeds and rewrites that record. *)
Lemma persist_found db j i b s :
  unique_bids db → mirrored db j → batches j !! i = Some b →
  ∃ r, db !! job_key j = Some r ∧ r_batches r = Batch_to_dict <$> batches j ∧
    update_redis_status scan (with_status s b) db =
      Some (<[job_key j :=
                set_record_batches
                  (Batch_to_dict <$> <[i := with_status s b]> (batches j)) r]> db).
Proof.
  intros HU (r & Hr & Hbs) Hb. exists r. split; [done|]. split; [done|].
  unfold update_redis_status.
  rewrite (update_scan_found _ _ db (job_key j) r i (Batch_to_dict b)); try done.
  - rewrite list_fmap_insert, <- Hbs. done.
  - apply Forall_forall. intros k. apply scan_spec.
  - apply scan_spec. by exists r.
  - by rewrite Hbs, list_lookup_fmap, Hb.
Qed.

Lemma current_mirrored st j :
  Inv st → current_job (sched st) = [j] → mirrored (redis st) j.
Proof.
  intros [_ HM _ _ _] Hcur. unfold mem_jobs in HM. rewrite Hcur in HM.
  rewrite Forall_app, Forall_singleton in HM. tauto.
Qed.

Lemma queue_check_ok now st :
  Inv st → current_job (sched st) = [] → step_ok st (queue_check now st).
Proof.
  intros HI Hcur. unfold queue_check.
  destruct (pq_get (job_queue st)) as [[[rk job] rest]|] eqn:Hget.
  - apply step_ok_quiet; [done | | done |].
    + by apply (Inv_pop st (rk, job) rest).
    + apply pq_get_perm in Hget as [Hperm _].
      unfold mem_jobs. cbn [job_queue sched current_job].
      rewrite Hcur, app_nil_r. intros j Hj. rewrite Hperm, fmap_cons.
      apply elem_of_app in Hj as [?|Hj]; [by right|].
      apply list_elem_of_singleton in Hj as ->. by left.
  - apply step_ok_quiet; [done | by apply Inv_set_sched | done |].
    unfold mem_jobs. simpl. by rewrite Hcur.
Qed.

Lemma loop_top_ok now st :
  Inv st → current_job (sched st) = [] → step_ok st (loop_top now st).
Proof.
  intros HI Hcur. unfold loop_top.
  destruct (Qltb _ _); [|by apply queue_check_ok].
  apply step_ok_quiet; [done | by apply Inv_set_sched | done |].
  unfold mem_jobs. simpl. by rewrite Hcur.
Qed.

Lemma for_batch_ok now st j i :
  Inv st → sched st = NextBatch j i → step_ok st (for_batch scan now j i st).
Proof.
  intros HI Hs. assert (Hcur : current_job (sched st) = [j]) by (by rewrite Hs).
  unfold for_batch. destruct (batches j !! i) as [b|] eqn:Hb.
  - destruct (persist_found (redis st) j i b TRIGGERED) as (r & Hr & Hbs & ->);
      [apply HI | by apply current_mirrored | done |].
    assert (Hst : statuses_at i false j).
    { destruct HI as [_ _ _ _ HS]. by rewrite Hs in HS. }
    assert (Hnext : next_status (status b) = Some TRIGGERED).
    { rewrite (Hst i b Hb). unfold expected_status. by rewrite decide_False by lia. }
    split; [|split; [|split]]; simpl.
    + apply Inv_dispatch; try done. simpl. split.
      * rewrite length_insert. by eapply lookup_lt_Some.
      * eapply (statuses_at_insert (with_status TRIGGERED)); [done| |done].
        intros k bk. apply expected_status_trigger.
    + by eapply persisted_forward_write.
    + by eapply memory_forward_write.
    + by eapply born_pending_rewrite.
  - apply step_ok_quiet; [done | by eapply Inv_finish | done |].
    unfold mem_jobs. simpl. rewrite app_nil_r. intros j' Hj'.
    apply elem_of_app. by left.
Qed.

Lemma finish_batch_ok now st j i w st' :
  Inv st → sched st = Working j i w → finish_batch scan now j i st = Some st' →
  step_ok st st'.
Proof.
  intros HI Hs. assert (Hcur : current_job (sched st) = [j]) by (by rewrite Hs).
  unfold finish_batch. destruct (batches j !! i) as [b|] eqn:Hb; [|done].
  destruct (persist_found (redis st) j i b COMPLETED) as (r & Hr & Hbs & ->);
    [apply HI | by apply current_mirrored | done |].
  intros [= <-].
  assert (Hst : statuses_at i true j).
  { destruct HI as [_ _ _ _ HS]. rewrite Hs in HS. apply HS. }
  assert (Hnext : next_status (status b) = Some COMPLETED).
  { rewrite (Hst i b Hb). unfold expected_status.
    rewrite decide_False by lia. by rewrite bool_decide_eq_true_2. }
  split; [|split; [|split]]; simpl.
  - apply Inv_dispatch; try done. simpl.
    eapply (statuses_at_insert (with_status COMPLETED)); [done| |done].
    intros k bk. apply expected_status_complete.
  - by eapply persisted_forward_write.
  - by eapply memory_forward_write.
  - by eapply born_pending_rewrite.
Qed.

Lemma ingest_ok u now request st :
  Inv st →
  forallb id_in_range (req_ids request)
    && negb (bool_decide (fresh_uuids u request (redis st))) = false →
  step_ok st (ingest_data u now request st).2.
Proof.
  intros HI Hen. destruct (forallb id_in_range (req_ids request)) eqn:Hvalid.
  - simpl in Hen. apply negb_false_iff, bool_decide_eq_true in Hen.
    split; [by apply Inv_ingest|].
    pose proof Hen as (Hkey%not_elem_of_dom & _ & _).
    unfold ingest_data. rewrite forallb_find_invalid by done. simpl.
    split; [by apply persisted_forward_insert|]. split.
    + eapply (memory_forward_ingest _ _
                (new_IngestionJob u (u O) (req_ids request) (req_priority request) now));
        [done..|].
      unfold mem_jobs, pq_put. simpl. rewrite fmap_app, <- app_assoc. simpl.
      symmetry. apply Permutation_middle.
    + intros k r' Hk [[<- <-]|[_ Hr']]%lookup_insert_Some; [|congruence].
      simpl. rewrite Forall_fmap. apply create_batches_status.
  - apply find_forallb_invalid in Hvalid as [x Hx].
    unfold ingest_data. rewrite Hx. simpl.
    by apply step_ok_quiet.
Qed.

Lemma step_sound ev st st' : Inv st → step scan ev st = Some st' → step_ok st st'.
Proof.
  intros HI. destruct ev as [now u request|iid|now]; simpl.
  - destruct (forallb _ _ && negb _) eqn:Hen; [done|].
    intros [= <-]. by apply ingest_ok.
  - intros [= <-]. unfold get_status.
    destruct (redis st !! ingestion_key iid); by apply step_ok_quiet.
  - unfold sched_step. destruct (sched st) as [|w|w|w|j i|j i w] eqn:Hs.
    + intros [= <-]. apply loop_top_ok; [done | by rewrite Hs].
    + destruct (Qleb w now); [|done]. intros [= <-].
      apply queue_check_ok; [done | by rewrite Hs].
    + destruct (Qleb w now); [|done]. intros [= <-].
      apply loop_top_ok; [done | by rewrite Hs].
    + by destruct (Inv_not_backoff st w HI).
    + intros [= <-]. by apply for_batch_ok.
    + destruct (Qleb w now); [|done]. by apply (finish_batch_ok now st j i w).
Qed.

Lemma Inv_init : Inv init.
Proof.
  split; unfold mem_jobs; simpl; try done; constructor.
Qed.

Lemma run_Inv evs st st' : Inv st → run scan evs st = Some st' → Inv st'.
Proof.
  revert st. induction evs as [|ev evs IH]; intros st HI; simpl.
  - by intros [= <-].
  - destruct (step scan ev st) as [st1|] eqn:Hstep; [|done].
    apply IH. by apply (step_sound ev st st1).
Qed.

End Scheduler.

(** ** The overall status of a persisted record *)

(** Whatever the scan does, no record gets a new top-level status from it:
    the field written at ingestion is the one every later read finds. *)
Lemma update_scan_keeps_status keys batch db db' k r' :
  update_scan keys batch db = Some db' → db' !! k = Some r' →
  ∃ r, db !! k = Some r ∧ r_status r' = r_status r ∧
       r_ingestion_id r' = r_ingestion_id r.
Proof.
  intros [->|(k0 & r0 & bs & Hr0 & _ & ->)]%update_scan_Some; [by eauto|].
  intros [[<- <-]|[_ Hr']]%lookup_insert_Some; by eauto.
Qed.

(** C1.  The run: ingest [1; 2; 3] at HIGH priority, let the scheduler pop
    the job and trigger its batch.  The record then lists the batch as
    triggered, so that the derivation rule gives TRIGGERED, while its
    top-level status is still the YET_TO_START written at ingestion; after
    the batch completes the rule gives COMPLETED and the field has not
    moved. *)
Theorem overall_status_goes_stale :
  let ingest := EvIngest 10%Q pretty (mkRequest [1; 2; 3] HIGH) in
  (∃ st r,
     run keys_of [ingest; EvWake 10%Q; EvWake 10%Q] init = Some st ∧
     (get_status "0" st).1 = OK r ∧
     d_status <$> r_batches r = [TRIGGERED] ∧
     derived_status r = TRIGGERED ∧ r_status r = YET_TO_START) ∧
  (∃ st r,
     run keys_of [ingest; EvWake 10%Q; EvWake 10%Q; EvWake 11%Q] init = Some st ∧
     (get_status "0" st).1 = OK r ∧
     d_status <$> r_batches r = [COMPLETED] ∧
     derived_status r = COMPLETED ∧ r_status r = YET_TO_START).
Proof.
  split.
  - eexists _, _. split; [vm_compute; reflexivity|].
    split; [vm_compute; reflexivity|]. by vm_compute.
  - eexists _, _. split; [vm_compute; reflexivity|].
    split; [vm_compute; reflexivity|]. by vm_compute.
Qed.

(** ** What a status query observes during a dispatch *)

Lemma observe_current st j i w :
  Inv st → current_job (sched st) = [j] → statuses_at i w j →
  ∃ r, (get_status (ingestion_id j) st).1 = OK r ∧
       length (r_batches r) = length (batches j) ∧
       ∀ k bk, r_batches r !! k = Some bk → d_status bk = expected_status i w k.
Proof.
  intros [_ HM _ _ _] Hcur Hst. unfold mem_jobs in HM. rewrite Hcur in HM.
  rewrite Forall_app, Forall_singleton in HM. destruct HM as [_ (r & Hr & Hbs)].
  exists r. unfold get_status. fold (job_key j). rewrite Hr. split; [done|].
  split; [by rewrite Hbs, length_fmap|].
  intros k bk. rewrite Hbs, list_lookup_fmap.
  destruct (batches j !! k) as [b|] eqn:Hb; [|done].
  intros [= <-]. simpl. by apply Hst.
Qed.

Lemma Qleb_false x y : Qleb x y = false ↔ (y < x)%Q.
Proof.
  rewrite <- not_true_iff_false, Qleb_le. split; [apply Qnot_le_lt | apply Qlt_not_le].
Qed.

Section Claims.

Variable scan : gmap string JobRecord → list string.
Hypothesis scan_spec : ∀ db k, k ∈ scan db ↔ is_Some (db !! k).

Lemma reachable_Inv evs st : run scan evs init = Some st → Inv st.
Proof. apply (run_Inv scan scan_spec). apply Inv_init. Qed.

(** From the head of the [for] loop with a batch left, the scheduler goes
    on at any time: it triggers the batch and sleeps 1. *)
Lemma next_batch_step st j i now :
  Inv st → sched st = NextBatch j i → (i < length (batches j))%nat →
  ∃ st' j', step scan (EvWake now) st = Some st' ∧
    sched st' = Working j' i (now + 1)%Q ∧ ingestion_id j' = ingestion_id j.
Proof.
  intros HI Hs [b Hb]%lookup_lt_is_Some.
  simpl. unfold sched_step. rewrite Hs. unfold for_batch. rewrite Hb.
  destruct (persist_found scan scan_spec (redis st) j i b TRIGGERED)
    as (r & _ & _ & ->);
    [apply HI | apply current_mirrored; [done | by rewrite Hs] | done |].
  by eexists _, _.
Qed.

(** From the sleep of [process_batch], the scheduler goes on once the
    sleep is over, not before: it completes the batch and is back at the
    head of the [for] loop. *)
Lemma working_step st j i w now :
  Inv st → sched st = Working j i w →
  ((now < w)%Q → step scan (EvWake now) st = None) ∧
  ((w <= now)%Q →
     ∃ st' j', step scan (EvWake now) st = Some st' ∧
       sched st' = NextBatch j' (S i) ∧ ingestion_id j' = ingestion_id j ∧
       length (batches j') = length (batches j)).
Proof.
  intros HI Hs. simpl. unfold sched_step. rewrite Hs. split.
  - intros Hlt%Qleb_false. by rewrite Hlt.
  - intros Hle%Qleb_le. rewrite Hle.
    assert (Hi : (i < length (batches j))%nat).
    { destruct HI as [_ _ _ _ HS]. rewrite Hs in HS. apply HS. }
    apply lookup_lt_is_Some in Hi as [b Hb].
    unfold finish_batch. rewrite Hb.
    destruct (persist_found scan scan_spec (redis st) j i b COMPLETED)
      as (r & _ & _ & ->);
      [apply HI | apply current_mirrored; [done | by rewrite Hs] | done |].
    eexists _, _. split; [done|]. split; [done|]. split; [done|].
    simpl. by rewrite length_insert.
Qed.

(** C4.  In every step of a run of the service, every batch of every
    persisted record keeps its status or moves one place forward along
    YET_TO_START, TRIGGERED, COMPLETED; so does every batch of every job
    in memory; and a record that appears has its batches at
    YET_TO_START. *)
Theorem status_moves_forward evs st ev st' :
  run scan evs init = Some st → step scan ev st = Some st' →
  persisted_forward (redis st) (redis st') ∧ memory_forward st st' ∧
  born_pending (redis st) (redis st').
Proof.
  intros HI%reachable_Inv Hstep.
  by destruct (step_sound scan scan_spec ev st st' HI Hstep) as (_ & ? & ? & ?).
Qed.

(** C5.  In a run of the service, while the scheduler is at the head of the
    [for] loop before batch [i] of the job it dispatches, the job's record
    shows the batches before [i] completed and the others not started, and
    the scheduler then triggers batch [i] and starts its work.  While the
    work of batch [i] is going on, the record shows batch [i] triggered,
    the batches before it completed and those after it not started; the
    scheduler cannot go on before the work is over, and when it does the
    record shows batch [i] completed and the scheduler is at the head of
    the loop before batch [i + 1]. *)
Theorem dispatch_is_sequential evs st :
  run scan evs init = Some st →
  (∀ j i, sched st = NextBatch j i →
     (∃ r, (get_status (ingestion_id j) st).1 = OK r ∧
        ∀ k b, r_batches r !! k = Some b →
          d_status b = if decide (k < i)%nat then COMPLETED else YET_TO_START) ∧
     (∀ now, (i < length (batches j))%nat →
        ∃ st' j', step scan (EvWake now) st = Some st' ∧
          sched st' = Working j' i (now + 1)%Q ∧
          ingestion_id j' = ingestion_id j)) ∧
  (∀ j i w, sched st = Working j i w →
     (∃ r b, (get_status (ingestion_id j) st).1 = OK r ∧
        r_batches r !! i = Some b ∧ d_status b = TRIGGERED ∧
        ∀ k bk, r_batches r !! k = Some bk → k ≠ i →
          d_status bk = if decide (k < i)%nat then COMPLETED else YET_TO_START) ∧
     (∀ now, (now < w)%Q → step scan (EvWake now) st = None) ∧
     (∀ now, (w <= now)%Q →
        ∃ st' j' r b, step scan (EvWake now) st = Some st' ∧
          sched st' = NextBatch j' (S i) ∧ ingestion_id j' = ingestion_id j ∧
          (get_status (ingestion_id j) st').1 = OK r ∧
          r_batches r !! i = Some b ∧ d_status b = COMPLETED)).
Proof.
  intros HI%reachable_Inv. split.
  - intros j i Hs. split; [|intros now Hi; by apply next_batch_step].
    destruct (observe_current st j i false) as (r & Hr & _ & Hst);
      [done | by rewrite Hs | |].
    { destruct HI as [_ _ _ _ HS]. by rewrite Hs in HS. }
    exists r. split; [done|]. intros k b Hb. by rewrite (Hst k b Hb).
  - intros j i w Hs.
    assert (Hok : (i < length (batches j))%nat ∧ statuses_at i true j).
    { destruct HI as [_ _ _ _ HS]. by rewrite Hs in HS. }
    destruct Hok as [Hi Hst0].
    split; [|split].
    + destruct (observe_current st j i true) as (r & Hr & Hlen & Hst);
        [done | by rewrite Hs | done |].
      destruct (lookup_lt_is_Some_2 (r_batches r) i) as [b Hb]; [lia|].
      exists r, b. split; [done|]. split; [done|]. split.
      * rewrite (Hst i b Hb). unfold expected_status.
        rewrite decide_False by lia. by rewrite bool_decide_eq_true_2.
      * intros k bk Hk Hne. rewrite (Hst k bk Hk). unfold expected_status.
        by rewrite (bool_decide_eq_false_2 (k = i)).
    + intros now. by apply (working_step st j i w now).
    + intros now Hle.
      destruct (proj2 (working_step st j i w now HI Hs) Hle)
        as (st' & j' & Hstep & Hs' & Hid & Hlen').
      destruct (step_sound scan scan_spec _ _ _ HI Hstep) as (HI' & _).
      destruct (observe_current st' j' (S i) false) as (r & Hr & Hlen & Hst);
        [done | by rewrite Hs' | |].
      { destruct HI' as [_ _ _ _ HS]. by rewrite Hs' in HS. }
      destruct (lookup_lt_is_Some_2 (r_batches r) i) as [b Hb]; [lia|].
      exists st', j', r, b. rewrite <- Hid. repeat (split; [done|]).
      rewrite (Hst i b Hb). unfold expected_status. by rewrite decide_True by lia.
Qed.

End Claims.

(** ** The throttle floor *)

Lemma ingest_data_sched u now request st :
  sched (ingest_data u now request st).2 = sched st ∧
  last_processed_time (ingest_data u now request st).2 = last_processed_time st.
Proof. unfold ingest_data. by destruct (List.find _ _). Qed.

Lemma get_status_state iid st : (get_status iid st).2 = st.
Proof. unfold get_status. by destruct (redis st !! ingestion_key iid). Qed.

Lemma floor_ok_nil : floor_ok [].
Proof. intros [|? ?] e s l2 Heq; discriminate. Qed.

Lemma floor_ok_start t log : floor_ok log → floor_ok (DispatchStart t :: log).
Proof.
  intros Hlog [|m l1] e s l2 Heq; [discriminate|].
  injection Heq as _ Heq. by apply (Hlog l1 e s l2).
Qed.

Lemma floor_ok_end t log :
  floor_ok log → (∀ s rest, log = DispatchStart s :: rest → (t + 5 <= s)%Q) →
  floor_ok (DispatchEnd t :: log).
Proof.
  intros Hlog Hhead [|m l1] e s l2 Heq.
  - injection Heq as -> Heq. by apply (Hhead s l2).
  - injection Heq as _ Heq. by apply (Hlog l1 e s l2).
Qed.

Section Throttle.

Variable scan : gmap string JobRecord → list string.

Lemma run_log_run evs st st' log :
  run_log scan evs st = Some (st', log) → run scan evs st = Some st'.
Proof.
  revert st log. induction evs as [|ev evs IH]; intros st log; simpl.
  - by intros [= <- _].
  - destruct (step scan ev st) as [st1|]; [|done].
    destruct (run_log scan evs st1) as [[st2 log1]|] eqn:Hrun; [|done].
    intros [= <- _]. by apply (IH st1 log1).
Qed.

(** The three kinds of steps, by what they add to the log. *)
Lemma step_marks ev st st' :
  throttle_ok st → step scan ev st = Some st' →
  (marks ev st st' = [] ∧ last_processed_time st' = last_processed_time st ∧
   (dispatching (sched st) = false → dispatching (sched st') = false)) ∨
  (∃ now, marks ev st st' = [DispatchStart now] ∧ dispatching (sched st) = false ∧
     last_processed_time st' = last_processed_time st ∧
     (last_processed_time st + 5 <= now)%Q) ∨
  (∃ now, marks ev st st' = [DispatchEnd now] ∧ dispatching (sched st') = false ∧
     last_processed_time st' = now).
Proof.
  intros Hthr.
  assert (Hcheck : ∀ now, (last_processed_time st + 5 <= now)%Q →
    dispatching (sched st) = false →
    let st1 := queue_check now st in
    last_processed_time st1 = last_processed_time st ∧
    ((∃ w, sched st1 = IdleWait w) ∨ (∃ j, sched st1 = NextBatch j 0))).
  { intros now Hnow Hq. unfold queue_check.
    destruct (pq_get (job_queue st)) as [[[rk job] rest]|]; simpl; eauto. }
  assert (Htop : ∀ now, dispatching (sched st) = false →
    let st1 := loop_top now st in
    last_processed_time st1 = last_processed_time st ∧
    ((∃ w, sched st1 = Throttled w) ∨ (∃ w, sched st1 = IdleWait w) ∨
     ((last_processed_time st + 5 <= now)%Q ∧ ∃ j, sched st1 = NextBatch j 0))).
  { intros now Hq. unfold loop_top.
    destruct (Qltb (now - last_processed_time st) 5) eqn:Hlt; simpl; [eauto|].
    assert (Hnow : (last_processed_time st + 5 <= now)%Q).
    { apply not_true_iff_false in Hlt. rewrite Qltb_lt in Hlt.
      apply Qnot_lt_le in Hlt. lra. }
    destruct (Hcheck now Hnow Hq) as [? [?|?]]; eauto. }
  destruct ev as [now u request|iid|now]; simpl.
  - destruct (forallb _ _ && negb _); [done|]. intros [= <-].
    destruct (ingest_data_sched u now request st) as [-> ->]. by left.
  - intros [= <-]. rewrite get_status_state. by left.
  - unfold sched_step, throttle_ok in *.
    destruct (sched st) as [|w|w|w|j i|j i w] eqn:Hs.
    + intros [= <-]. destruct (Htop now eq_refl) as [Hl [[w ->]|[[w ->]|[Hnow [j ->]]]]];
        [by left | by left | right; left; by exists now].
    + destruct (Qleb w now) eqn:Hw; [|done]. intros [= <-].
      apply Qleb_le in Hw.
      destruct (Hcheck now) as [Hl [[w' ->]|[j ->]]];
        [lra | done | by left | right; left; exists now; split_and!; [done..|lra]].
    + destruct (Qleb w now); [|done]. intros [= <-].
      destruct (Htop now eq_refl) as [Hl [[w' ->]|[[w' ->]|[Hnow [j ->]]]]];
        [by left | by left | right; left; by exists now].
    + destruct (Qleb w now); [|done]. intros [= <-].
      destruct (Htop now eq_refl) as [Hl [[w' ->]|[[w' ->]|[Hnow [j ->]]]]];
        [by left | by left | right; left; by exists now].
    + intros [= <-]. unfold for_batch.
      destruct (batches j !! i) as [b|]; simpl.
      * destruct (update_redis_status _ _ _); simpl; by left.
      * right. right. by exists now.
    + destruct (Qleb w now); [|done]. unfold finish_batch.
      destruct (batches j !! i) as [b|]; [|done].
      destruct (update_redis_status _ _ _); intros [= <-]; simpl; by left.
Qed.

Lemma step_throttle_ok ev st st' :
  throttle_ok st → step scan ev st = Some st' → throttle_ok st'.
Proof.
  intros Hthr. destruct ev as [now u request|iid|now]; simpl.
  - destruct (forallb _ _ && negb _); [done|]. intros [= <-].
    unfold throttle_ok in *. by destruct (ingest_data_sched u now request st) as [-> ->].
  - intros [= <-]. by rewrite get_status_state.
  - assert (Hcheck : throttle_ok (queue_check now st)).
    { unfold queue_check, throttle_ok.
      by destruct (pq_get (job_queue st)) as [[[rk job] rest]|]. }
    assert (Htop : throttle_ok (loop_top now st)).
    { unfold loop_top. destruct (Qltb _ _); [|done].
      unfold throttle_ok. simpl. lra. }
    unfold sched_step. destruct (sched st) as [|w|w|w|j i|j i w] eqn:Hs.
    + by intros [= <-].
    + destruct (Qleb w now); [|done]. by intros [= <-].
    + destruct (Qleb w now); [|done]. by intros [= <-].
    + destruct (Qleb w now); [|done]. by intros [= <-].
    + intros [= <-]. unfold for_batch, throttle_ok.
      destruct (batches j !! i) as [b|]; simpl; [|done].
      by destruct (update_redis_status _ _ _).
    + destruct (Qleb w now); [|done]. unfold finish_batch, throttle_ok.
      destruct (batches j !! i) as [b|]; [|done].
      by destruct (update_redis_status _ _ _); intros [= <-].
Qed.

Lemma run_log_floor evs st st' log :
  throttle_ok st → run_log scan evs st = Some (st', log) →
  floor_ok log ∧
  (dispatching (sched st) = false →
   ∀ s rest, log = DispatchStart s :: rest → (last_processed_time st + 5 <= s)%Q).
Proof.
  revert st log. induction evs as [|ev evs IH]; intros st log Hthr; simpl.
  - intros [= _ <-]. split; [apply floor_ok_nil | done].
  - destruct (step scan ev st) as [st1|] eqn:Hstep; [|done].
    destruct (run_log scan evs st1) as [[st2 log1]|] eqn:Hrun; [|done].
    intros [= -> <-].
    destruct (IH st1 log1 (step_throttle_ok _ _ _ Hthr Hstep) Hrun) as [Hfl Hhd].
    destruct (step_marks _ _ _ Hthr Hstep)
      as [(-> & Hl & Hq)|[(now & -> & Hq & Hl & Hnow)|(now & -> & Hq & Hl)]]; simpl.
    + split; [done|]. intros Hq0. rewrite <- Hl. by apply Hhd, Hq.
    + split; [by apply floor_ok_start|]. by intros _ s rest [= <- _].
    + split; [|done]. apply floor_ok_end; [done|]. rewrite <- Hl. by apply Hhd.
Qed.

End Throttle.

Section Timing.

Variable scan : gmap string JobRecord → list string.
Hypothesis scan_spec : ∀ db k, k ∈ scan db ↔ is_Some (db !! k).

Lemma step_marks_alternate ev st st' :
  Inv st → step scan ev st = Some st' →
  (marks ev st st' = [] ∧ dispatching (sched st') = dispatching (sched st)) ∨
  (∃ now, marks ev st st' = [DispatchStart now] ∧
     dispatching (sched st) = false ∧ dispatching (sched st') = true) ∨
  (∃ now, marks ev st st' = [DispatchEnd now] ∧
     dispatching (sched st) = true ∧ dispatching (sched st') = false).
Proof.
  intros HI.
  assert (Hcheck : ∀ now, dispatching (sched st) = false →
    (∃ w, sched (queue_check now st) = IdleWait w) ∨
    (∃ j, sched (queue_check now st) = NextBatch j 0)).
  { intros now Hq. unfold queue_check.
    destruct (pq_get (job_queue st)) as [[[rk job] rest]|]; simpl; eauto. }
  assert (Htop : ∀ now, dispatching (sched st) = false →
    (∃ w, sched (loop_top now st) = Throttled w) ∨
    (∃ w, sched (loop_top now st) = IdleWait w) ∨
    (∃ j, sched (loop_top now st) = NextBatch j 0)).
  { intros now Hq. unfold loop_top. destruct (Qltb _ _); simpl; [eauto|].
    destruct (Hcheck now Hq); eauto. }
  destruct ev as [now u request|iid|now].
  - simpl. destruct (forallb _ _ && negb _); [done|]. intros [= <-].
    destruct (ingest_data_sched u now request st) as [-> _]. by left.
  - simpl. intros [= <-]. rewrite get_status_state. by left.
  - destruct (sched st) as [|w|w|w|j i|j i w] eqn:Hs.
    + simpl. unfold sched_step. rewrite Hs. intros [= <-].
      destruct (Htop now eq_refl) as [[w ->]|[[w ->]|[j ->]]];
        [by left | by left | right; left; by exists now].
    + simpl. unfold sched_step. rewrite Hs.
      destruct (Qleb w now); [|done]. intros [= <-].
      destruct (Hcheck now eq_refl) as [[w' ->]|[j ->]];
        [by left | right; left; by exists now].
    + simpl. unfold sched_step. rewrite Hs.
      destruct (Qleb w now); [|done]. intros [= <-].
      destruct (Htop now eq_refl) as [[w' ->]|[[w' ->]|[j ->]]];
        [by left | by left | right; left; by exists now].
    + by destruct (Inv_not_backoff st w HI).
    + destruct (decide (i < length (batches j))%nat) as [Hi|Hi].
      * destruct (next_batch_step scan scan_spec st j i now HI Hs Hi)
          as (st1 & j' & -> & Hs' & _).
        intros [= <-]. simpl. rewrite Hs, Hs'. by left.
      * simpl. unfold sched_step. rewrite Hs. intros [= <-]. unfold for_batch.
        rewrite (lookup_ge_None_2 (batches j) i) by lia. simpl.
        right. right. by exists now.
    + destruct (Qlt_le_dec now w) as [Hlt|Hle].
      * by rewrite (proj1 (working_step scan scan_spec st j i w now HI Hs) Hlt).
      * destruct (proj2 (working_step scan scan_spec st j i w now HI Hs) Hle)
          as (st1 & j' & -> & Hs' & _).
        intros [= <-]. simpl. rewrite Hs, Hs'. by left.
Qed.

Lemma run_log_alternates evs st st' log :
  Inv st → run_log scan evs st = Some (st', log) →
  alternates (negb (dispatching (sched st))) log.
Proof.
  revert st log. induction evs as [|ev evs IH]; intros st log HI; simpl.
  - by intros [= _ <-].
  - destruct (step scan ev st) as [st1|] eqn:Hstep; [|done].
    destruct (run_log scan evs st1) as [[st2 log1]|] eqn:Hrun; [|done].
    intros [= -> <-].
    destruct (step_sound scan scan_spec _ _ _ HI Hstep) as (HI1 & _).
    specialize (IH st1 log1 HI1 Hrun).
    destruct (step_marks_alternate _ _ _ HI Hstep)
      as [(-> & Hd)|[(now & -> & Hd & Hd1)|(now & -> & Hd & Hd1)]]; simpl.
    + by rewrite <- Hd.
    + rewrite Hd. split; [done|]. by rewrite Hd1 in IH.
    + rewrite Hd. split; [done|]. by rewrite Hd1 in IH.
Qed.

(** C6.  The dispatch log of a run of the service is a sequence of starts
    and ends that alternate, beginning with a start; a dispatch that
    starts after the end of the one before it starts at least 5 time units
    after that end, the end being the time recorded once all the batches of
    the earlier job are completed.  Between two batches of one job there is
    no such floor: at the head of the [for] loop with a batch left, the
    scheduler goes on whatever the time is. *)
Theorem dispatch_floor evs st log :
  run_log scan evs init = Some (st, log) →
  alternates true log ∧
  (∀ l1 e s l2,
     log = l1 ++ DispatchEnd e :: DispatchStart s :: l2 → (e + 5 <= s)%Q) ∧
  (∀ j i now, sched st = NextBatch j i → (i < length (batches j))%nat →
     ∃ st' j', step scan (EvWake now) st = Some st' ∧
       sched st' = Working j' i (now + 1)%Q).
Proof.
  intros Hrun. split; [|split].
  - apply (run_log_alternates evs init st log); [apply Inv_init | done].
  - by destruct (run_log_floor scan evs init st log I Hrun) as [Hfl _].
  - intros j i now Hs Hi.
    apply run_log_run, (reachable_Inv scan scan_spec) in Hrun.
    destruct (next_batch_step scan scan_spec st j i now Hrun Hs Hi)
      as (st' & j' & ? & ? & _).
    by exists st', j'.
Qed.

(** ** Empty requests *)

Lemma update_redis_status_keeps_empty batch db db' k r :
  r_batches r = [] → db !! k = Some r →
  update_redis_status scan batch db = Some db' → db' !! k = Some r.
Proof.
  intros Hnil Hr [->|(k0 & r0 & bs & Hr0 & Hset & ->)]%update_scan_Some; [done|].
  rewrite lookup_insert_ne; [done|]. intros ->.
  assert (r0 = r) as -> by congruence. by rewrite Hnil in Hset.
Qed.

Lemma step_keeps_empty ev st st' k r :
  r_batches r = [] → redis st !! k = Some r →
  step scan ev st = Some st' → redis st' !! k = Some r.
Proof.
  intros Hnil Hr. destruct ev as [now u request|iid|now]; simpl.
  - destruct (forallb id_in_range (req_ids request)) eqn:Hvalid; simpl.
    + destruct (bool_decide_reflect (fresh_uuids u request (redis st)))
        as [(Hkey%not_elem_of_dom & _)|]; [|done].
      simpl. intros [= <-]. unfold ingest_data.
      rewrite forallb_find_invalid by done. simpl.
      rewrite lookup_insert_ne; [done | congruence].
    + intros [= <-]. apply find_forallb_invalid in Hvalid as [x Hx].
      unfold ingest_data. by rewrite Hx.
  - intros [= <-]. by rewrite get_status_state.
  - assert (Hcheck : redis (queue_check now st) !! k = Some r).
    { unfold queue_check. by destruct (pq_get (job_queue st)) as [[[rk job] rest]|]. }
    assert (Htop : redis (loop_top now st) !! k = Some r).
    { unfold loop_top. by destruct (Qltb _ _). }
    unfold sched_step. destruct (sched st) as [|w|w|w|j i|j i w].
    + by intros [= <-].
    + destruct (Qleb w now); [|done]. by intros [= <-].
    + destruct (Qleb w now); [|done]. by intros [= <-].
    + destruct (Qleb w now); [|done]. by intros [= <-].
    + intros [= <-]. unfold for_batch.
      destruct (batches j !! i) as [b|]; [|done].
      destruct (update_redis_status _ _ _) as [db|] eqn:Hup; [|done].
      exact (update_redis_status_keeps_empty _ _ _ k r Hnil Hr Hup).
    + destruct (Qleb w now); [|done]. unfold finish_batch.
      destruct (batches j !! i) as [b|]; [|done].
      destruct (update_redis_status _ _ _) as [db|] eqn:Hup; intros [= <-]; [|done].
      exact (update_redis_status_keeps_empty _ _ _ k r Hnil Hr Hup).
Qed.

Lemma run_keeps_empty evs st st' k r :
  r_batches r = [] → redis st !! k = Some r →
  run scan evs st = Some st' → redis st' !! k = Some r.
Proof.
  intros Hnil. revert st. induction evs as [|ev evs IH]; intros st Hr; simpl.
  - by intros [= <-].
  - destruct (step scan ev st) as [st1|] eqn:Hstep; [|done].
    apply IH. by eapply step_keeps_empty.
Qed.

(** C10.  Ingesting an empty identifier list succeeds: it returns the new
    ingestion identifier, puts the job on the queue and writes a record
    with no batch and overall status COMPLETED.  No later event of a run,
    the dispatch of that job included, changes this record. *)
Theorem empty_request_completed u now p st :
  let request := mkRequest [] p in
  let st1 := (ingest_data u now request st).2 in
  let r := {| r_ingestion_id := u O; r_status := COMPLETED; r_batches := [] |} in
  (ingest_data u now request st).1 = OK (u O) ∧
  (∃ job, job_queue st1 = job_queue st ++ [(get_value p, job)] ∧
          ingestion_id job = u O ∧ batches job = []) ∧
  redis st1 !! ingestion_key (u O) = Some r ∧
  (get_status (u O) st1).1 = OK r ∧
  ∀ evs st2, run scan evs st1 = Some st2 →
    (get_status (u O) st2).1 = OK r.
Proof.
  intros request st1 r.
  assert (Hr : redis st1 !! ingestion_key (u O) = Some r).
  { unfold st1, ingest_data. simpl. by rewrite lookup_insert_eq. }
  split; [done|]. split; [by eexists|]. split; [done|].
  split; [unfold get_status; by rewrite Hr|].
  intros evs st2 Hrun. unfold get_status.
  by rewrite (run_keeps_empty evs st1 st2 _ r eq_refl Hr Hrun).
Qed.

End Timing.

(** ** The theorems on concrete runs *)

Lemma status_moves_forward_witness :
  let evs := [EvIngest 10%Q pretty (mkRequest [1; 2; 3; 4] HIGH);
              EvWake 10%Q; EvWake 10%Q] in
  ∃ st st',
    run keys_of evs init = Some st ∧ step keys_of (EvWake 11%Q) st = Some st' ∧
    persisted_forward (redis st) (redis st') ∧ memory_forward st st' ∧
    born_pending (redis st) (redis st').
Proof.
  intros evs. eexists _, _.
  split; [vm_compute; reflexivity|]. split; [vm_compute; reflexivity|].
  apply (status_moves_forward keys_of keys_of_spec evs _ (EvWake 11%Q) _);
    vm_compute; reflexivity.
Defined.

Lemma dispatch_is_sequential_witness :
  let evs := [EvIngest 10%Q pretty (mkRequest [1; 2; 3; 4] HIGH);
              EvWake 10%Q; EvWake 10%Q; EvWake 11%Q; EvWake 11%Q] in
  ∃ st j r b,
    run keys_of evs init = Some st ∧ sched st = Working j 1 12%Q ∧
    (get_status (ingestion_id j) st).1 = OK r ∧
    r_batches r !! 1%nat = Some b ∧ d_status b = TRIGGERED ∧
    step keys_of (EvWake (23 # 2)) st = None.
Proof.
  intros evs.
  destruct (run keys_of evs init) as [st|] eqn:Hrun; [|by vm_compute in Hrun].
  pose proof (dispatch_is_sequential keys_of keys_of_spec evs st Hrun) as [_ HW].
  vm_compute in Hrun. injection Hrun as <-.
  destruct (HW _ _ _ eq_refl) as ((r & b & Hr & Hb & Hs & _) & Hearly & _).
  eexists _, _, r, b. split; [reflexivity|]. split; [reflexivity|].
  split; [exact Hr|]. split; [exact Hb|]. split; [exact Hs|].
  apply Hearly. reflexivity.
Defined.

Lemma dispatch_floor_witness :
  let evs := [EvIngest 0%Q pretty (mkRequest [1] HIGH);
              EvIngest 0%Q (λ k, "b" +:+ pretty k) (mkRequest [2] LOW);
              EvWake 10%Q; EvWake 10%Q; EvWake 11%Q; EvWake 11%Q;
              EvWake 11%Q; EvWake 16%Q] in
  ∃ st,
    run_log keys_of evs init =
      Some (st, [DispatchStart 10%Q; DispatchEnd 11%Q; DispatchStart 16%Q]) ∧
    (11 + 5 <= 16)%Q.
Proof.
  intros evs. eexists. split; [vm_compute; reflexivity|].
  refine (proj1 (proj2 (dispatch_floor keys_of keys_of_spec evs _ _ _))
            [DispatchStart 10%Q] 11%Q 16%Q [] _);
    [vm_compute; reflexivity | reflexivity].
Defined.

Lemma empty_request_completed_witness :
  let st1 := (ingest_data (λ _, "job") 0%Q (mkRequest [] LOW) init).2 in
  let r := {| r_ingestion_id := "job"; r_status := COMPLETED; r_batches := [] |} in
  ∃ st2,
    run keys_of [EvWake 10%Q; EvWake 10%Q] st1 = Some st2 ∧
    sched st2 = AtTop ∧ job_queue st2 = [] ∧
    (get_status "job" st2).1 = OK r.
Proof.
  intros st1 r. eexists. split; [vm_compute; reflexivity|].
  split; [reflexivity|]. split; [reflexivity|].
  apply (proj2 (proj2 (proj2 (proj2
            (empty_request_completed keys_of (λ _, "job") 0%Q LOW init))))
           [EvWake 10%Q; EvWake 10%Q]).
  vm_compute; reflexivity.
Defined.

(** * Further properties of the service *)

(** ** The order of jobs *)

Lemma entry_lt_job_lt a b : entry_lt (queue_entry a) (queue_entry b) = job_lt a b.
Proof.
  unfold entry_lt, job_lt, queue_entry. simpl.
  by destruct (get_value (priority a) =? get_value (priority b)).
Qed.

Lemma job_lt_before a b : job_lt a b = true ↔ job_before a b.
Proof. rewrite <- entry_lt_job_lt. apply entry_lt_before. Qed.

Lemma job_before_trans a b c : job_before a b → job_before b c → job_before a c.
Proof.
  unfold job_before, entry_before. simpl.
  intros [?|[? ?]] [?|[? ?]]; [left; lia | left; lia | left; lia |].
  right. split; [lia | lra].
Qed.

Lemma get_value_inj p q : get_value p = get_value q → p = q.
Proof. by destruct p, q. Qed.

(** X1.  [__lt__] is a strict order on jobs: no job is less than itself, two
    jobs are never less than each other, and it is transitive.  Two jobs
    neither of which is less than the other have the same priority and the
    same creation time.  The tuples put on the queue compare as the jobs
    do. *)
Theorem job_lt_strict_order (a b c : IngestionJob) :
  job_lt a a = false ∧
  (job_lt a b = true → job_lt b a = false) ∧
  (job_lt a b = true → job_lt b c = true → job_lt a c = true) ∧
  (job_lt a b = false → job_lt b a = false →
     priority a = priority b ∧ (created_time a == created_time b)%Q) ∧
  entry_lt (queue_entry a) (queue_entry b) = job_lt a b.
Proof.
  split; [|split; [|split; [|split]]].
  - apply not_true_iff_false. rewrite job_lt_before. apply job_before_irrefl.
  - intros Hab%job_lt_before. apply not_true_iff_false. rewrite job_lt_before.
    by apply job_before_asym.
  - rewrite !job_lt_before. apply job_before_trans.
  - intros Hab%not_true_iff_false Hba%not_true_iff_false.
    rewrite job_lt_before in Hab, Hba. unfold job_before, entry_before in *.
    simpl in *.
    assert (get_value (priority a) = get_value (priority b)) as Heq by lia.
    split; [by apply get_value_inj|].
    apply Qle_antisym; apply Qnot_lt_le; intros Hlt; [apply Hba | apply Hab];
      right; split; lia || done.
  - apply entry_lt_job_lt.
Qed.

Lemma job_lt_strict_order_witness :
  let a := mkJob "a" [1] HIGH 5%Q [] in
  let b := mkJob "b" [2] HIGH 7%Q [] in
  let c := mkJob "c" [3] LOW 0%Q [] in
  job_lt a b = true ∧ job_lt b c = true ∧ job_lt a c = true ∧ job_lt b a = false.
Proof.
  intros a b c.
  assert (Hab : job_lt a b = true) by reflexivity.
  assert (Hbc : job_lt b c = true) by reflexivity.
  split; [exact Hab|]. split; [exact Hbc|]. split.
  - exact (proj1 (proj2 (proj2 (job_lt_strict_order a b c))) Hab Hbc).
  - exact (proj1 (proj2 (job_lt_strict_order a b c)) Hab).
Defined.



(** ** The layout of the batches *)

Lemma range_from_lookup fuel i stop k :
  (i + 3 * k < stop)%nat → (stop - i ≤ fuel)%nat →
  range_from fuel i stop 3 !! k = Some (i + 3 * k)%nat.
Proof.
  revert i k. induction fuel as [|fuel IH]; intros i k Hk Hfuel; [lia|].
  cbn [range_from]. destruct (Nat.ltb_spec i stop) as [_|?]; [|lia].
  destruct k as [|k]; simpl.
  - f_equal. lia.
  - rewrite IH by lia. f_equal. lia.
Qed.

(** X3.  The batch at position [k] of a new job holds the identifiers at
    positions 3k, 3k+1, 3k+2 of the request, as many as there are; it has the
    uuid drawn at the [k]-th call after the one of the job's identifier and
    is not started.  There is no batch at a position whose first identifier
    would be past the end of the list. *)
Theorem create_batches_layout (u : nat → string) (l : list Z) (k : nat) :
  ((3 * k < length l)%nat →
     ∃ b, _create_batches u l !! k = Some b ∧
       batch_id b = u (S k) ∧ ids b = take 3 (drop (3 * k) l) ∧
       status b = YET_TO_START ∧
       length (ids b) = Nat.min 3 (length l - 3 * k)) ∧
  ((length l ≤ 3 * k)%nat → _create_batches u l !! k = None).
Proof.
  split.
  - intros Hk. unfold _create_batches, range0.
    rewrite list_lookup_imap, (range_from_lookup _ 0 _ k) by lia.
    cbn -[Nat.mul Nat.min take drop]. eexists. split; [done|].
    cbn -[Nat.mul Nat.min take drop]. unfold slice.
    replace (3 * k + 3 - 3 * k)%nat with 3%nat by lia.
    split; [done|]. split; [done|]. split; [done|].
    by rewrite length_take, length_drop.
  - intros Hk. apply lookup_ge_None.
    destruct (create_batches_shape u l) as (-> & _). 
    zify. Z.to_euclidean_division_equations. lia.
Qed.

Lemma create_batches_layout_witness :
  ∃ b, _create_batches pretty [10; 20; 30; 40; 50] !! 1%nat = Some b ∧
       ids b = [40; 50] ∧ length (ids b) = 2%nat.
Proof.
  destruct (proj1 (create_batches_layout pretty [10; 20; 30; 40; 50] 1))
    as (b & Hb & _ & Hids & _ & Hlen); [simpl; lia|].
  exists b. split; [exact Hb|]. split; [exact Hids | exact Hlen].
Defined.

(** ** Ingestion followed by a status query *)

Lemma ingestion_key_inj a b : ingestion_key a = ingestion_key b → a = b.
Proof. unfold ingestion_key. simpl. intros [= H]. exact H. Qed.

Lemma derived_status_to_dict j : derived_status (to_dict j) = get_overall_status j.
Proof.
  unfold derived_status, get_overall_status. simpl.
  by rewrite <- list_fmap_compose.
Qed.

(** X4.  Right after a successful ingestion, the status query for the
    returned identifier gives a record with that identifier whose batches
    are all not started and carry, in order, the identifiers of the request;
    its overall status follows the derivation rule, and is YET_TO_START when
    the request has an identifier.  The query for any other identifier
    answers as it did before the ingestion. *)
Theorem ingest_then_status (u : nat → string) (now : Q)
    (request : IngestionRequest) (st : State) :
  Forall (λ id, 1 ≤ id ≤ 10 ^ 9 + 7) (req_ids request) →
  let st1 := (ingest_data u now request st).2 in
  (∃ r, (get_status (u O) st1).1 = OK r ∧
     r_ingestion_id r = u O ∧
     Forall (λ b, d_status b = YET_TO_START) (r_batches r) ∧
     concat (d_ids <$> r_batches r) = req_ids request ∧
     r_status r = derived_status r ∧
     (req_ids request ≠ [] → r_status r = YET_TO_START)) ∧
  (∀ iid, iid ≠ u O → (get_status iid st1).1 = (get_status iid st).1).
Proof.
  intros Hvalid st1.
  set (job := new_IngestionJob u (u O) (req_ids request) (req_priority request) now).
  assert (Hst1 : redis st1 = <[ingestion_key (u O) := to_dict job]> (redis st)).
  { unfold st1, ingest_data. by rewrite find_invalid_none. }
  split.
  - exists (to_dict job). unfold get_status. rewrite Hst1, lookup_insert_eq.
    split; [done|]. split; [done|]. split; [|split; [|split]].
    + simpl. rewrite Forall_fmap. apply create_batches_status.
    + simpl. rewrite <- list_fmap_compose.
      apply (create_batches_shape u (req_ids request)).
    + by rewrite derived_status_to_dict.
    + intros Hne. change (r_status (to_dict job)) with (get_overall_status job).
      destruct (get_overall_status_rule job) as (_ & _ & Hyet). apply Hyet.
      change (batches job) with (_create_batches u (req_ids request)).
      pose proof (create_batches_status u (req_ids request)) as Hall.
      pose proof (create_batches_shape u (req_ids request)) as (Hlen & _ & _).
      destruct (_create_batches u (req_ids request)) as [|b bs] eqn:Hbs.
      * exfalso. destruct (req_ids request) as [|x l']; [done|].
        cbn [length] in Hlen. revert Hlen.
        zify. Z.to_euclidean_division_equations. lia.
      * apply Forall_cons_1 in Hall as [Hb Hall]. split.
        -- intros [Hc _]%Forall_cons_1. congruence.
        -- intros Hex. apply Exists_exists in Hex as (x & Hx & Hxt).
           apply elem_of_cons in Hx as [->|Hx]; [congruence|].
           rewrite Forall_forall in Hall. specialize (Hall x Hx). congruence.
  - intros iid Hne. unfold get_status. rewrite Hst1, lookup_insert_ne.
    + by destruct (redis st !! ingestion_key iid).
    + intros Heq%ingestion_key_inj. by apply Hne.
Qed.

Lemma ingest_then_status_witness :
  let request := mkRequest [1; 2; 3; 4; 5] HIGH in
  Forall (λ id, 1 ≤ id ≤ 10 ^ 9 + 7) (req_ids request) ∧
  ∃ r, (get_status "0" (ingest_data pretty 3%Q request init).2).1 = OK r ∧
       r_status r = YET_TO_START ∧
       concat (d_ids <$> r_batches r) = [1; 2; 3; 4; 5].
Proof.
  intros request.
  assert (Hvalid : Forall (λ id, 1 ≤ id ≤ 10 ^ 9 + 7) (req_ids request))
    by (repeat constructor; lia).
  split; [exact Hvalid|].
  destruct (proj1 (ingest_then_status pretty 3%Q request init Hvalid))
    as (r & Hr & _ & _ & Hcat & _ & Hyet).
  exists r. split; [exact Hr|]. split; [by apply Hyet | exact Hcat].
Defined.

(** ** What [update_redis_status] writes *)

Lemma update_scan_cases keys batch db db' :
  update_scan keys batch db = Some db' →
  db' = db ∨
  ∃ k r i b, db !! k = Some r ∧ r_batches r !! i = Some b ∧
    d_batch_id b = batch_id batch ∧
    db' = <[k := set_record_batches
                   (<[i := set_dict_status (status batch) b]> (r_batches r)) r]> db.
Proof.
  intros [->|(k & r & bs & Hr & Hset & ->)]%update_scan_Some; [by left|].
  apply set_batch_status_Some in Hset as (i & b & Hi & Hb & ->).
  right. by exists k, r, i, b.
Qed.

Lemma update_scan_absent keys batch db :
  Forall (λ k, is_Some (db !! k)) keys →
  batch_id batch ∉ stored_batch_ids db →
  update_scan keys batch db = Some db.
Proof.
  intros Hkeys Habs. induction Hkeys as [|key keys [r Hr] _ IH]; simpl; [done|].
  rewrite Hr, set_batch_status_None; [done|].
  apply Forall_forall. intros b [i Hi]%list_elem_of_lookup Hb.
  apply Habs, stored_batch_ids_spec. by exists key, r, i, b.
Qed.

Lemma update_scan_total keys batch db :
  Forall (λ k, is_Some (db !! k)) keys → is_Some (update_scan keys batch db).
Proof.
  induction 1 as [|key keys [r Hr] _ IH]; simpl; [done|].
  rewrite Hr. by destruct (set_batch_status _ _ _).
Qed.

Section Persist.

Variable scan : gmap string JobRecord → list string.

(** X5.  A successful [update_redis_status] leaves the set of keys as it
    was, and in every record the identifier, the top-level status, the number
    of batches and, in every batch, the batch identifier and the identifier
    list.  A batch status it changes belongs to a batch with the identifier
    of the batch given and becomes the status of that batch.  It changes one
    record at most. *)
Theorem update_redis_status_frame (batch : Batch) (db db' : gmap string JobRecord) :
  update_redis_status scan batch db = Some db' →
  dom db' = dom db ∧
  (∀ k r, db !! k = Some r →
     ∃ r', db' !! k = Some r' ∧
       r_ingestion_id r' = r_ingestion_id r ∧ r_status r' = r_status r ∧
       length (r_batches r') = length (r_batches r) ∧
       ∀ i b, r_batches r !! i = Some b →
         ∃ b', r_batches r' !! i = Some b' ∧
           d_batch_id b' = d_batch_id b ∧ d_ids b' = d_ids b ∧
           (d_status b' = d_status b ∨
            (d_batch_id b = batch_id batch ∧ d_status b' = status batch))) ∧
  (∀ k1 k2, db' !! k1 ≠ db !! k1 → db' !! k2 ≠ db !! k2 → k1 = k2).
Proof.
  intros [->|(k0 & r0 & i0 & b0 & Hr0 & Hb0 & Hid & ->)]%update_scan_cases.
  - split; [done|]. split; [|done].
    intros k r Hr. exists r. repeat (split; [done|]).
    intros i b Hb. exists b. repeat (split; [done|]). by left.
  - split; [|split].
    + apply dom_insert_lookup_L. by exists r0.
    + intros k r Hr. destruct (decide (k0 = k)) as [<-|Hne].
      * assert (r = r0) as -> by congruence.
        rewrite lookup_insert_eq. eexists. split; [done|]. simpl.
        split; [done|]. split; [done|]. split; [by rewrite length_insert|].
        intros i b Hb. destruct (decide (i0 = i)) as [<-|Hi].
        -- assert (b = b0) as -> by congruence.
           rewrite list_lookup_insert_eq by (by eapply lookup_lt_Some).
           eexists. split; [done|]. simpl. repeat (split; [done|]). by right.
        -- rewrite list_lookup_insert_ne by done.
           exists b. repeat (split; [done|]). by left.
      * rewrite lookup_insert_ne by done. exists r. repeat (split; [done|]).
        intros i b Hb. exists b. repeat (split; [done|]). by left.
    + intros k1 k2 H1 H2.
      destruct (decide (k0 = k1)) as [<-|Hne1]; [|by rewrite lookup_insert_ne in H1].
      destruct (decide (k0 = k2)) as [<-|Hne2]; [done|].
      by rewrite lookup_insert_ne in H2.
Qed.

Hypothesis scan_spec : ∀ db k, k ∈ scan db ↔ is_Some (db !! k).

(** X6.  When [keys] lists stored keys only, [update_redis_status] raises
    nothing; and when no record holds a batch with the identifier of the
    batch given, it writes nothing. *)
Theorem update_redis_status_no_raise (batch : Batch) (db : gmap string JobRecord) :
  is_Some (update_redis_status scan batch db) ∧
  (batch_id batch ∉ stored_batch_ids db →
     update_redis_status scan batch db = Some db).
Proof.
  assert (Hkeys : Forall (λ k, is_Some (db !! k)) (scan db)).
  { apply Forall_forall. intros k. apply scan_spec. }
  split; [by apply update_scan_total|].
  intros Habs. by apply update_scan_absent.
Qed.

End Persist.

Lemma update_redis_status_frame_witness :
  let r := {| r_ingestion_id := "j"; r_status := YET_TO_START;
              r_batches := [mkBatchDict "b1" [1; 2; 3] YET_TO_START;
                            mkBatchDict "b2" [4] YET_TO_START] |} in
  let db : gmap string JobRecord := {[ ingestion_key "j" := r ]} in
  ∃ db' r',
    update_redis_status keys_of (mkBatch "b2" [4] TRIGGERED) db = Some db' ∧
    db' !! ingestion_key "j" = Some r' ∧ r_status r' = YET_TO_START ∧
    length (r_batches r') = 2%nat.
Proof.
  intros r db.
  destruct (update_redis_status keys_of (mkBatch "b2" [4] TRIGGERED) db)
    as [db'|] eqn:Hup; [|by vm_compute in Hup].
  destruct (proj1 (proj2 (update_redis_status_frame keys_of _ _ _ Hup))
              (ingestion_key "j") r) as (r' & Hr' & _ & Hs & Hlen & _);
    [reflexivity|].
  exists db', r'. split; [done|]. split; [exact Hr'|].
  split; [exact Hs | exact Hlen].
Defined.

Lemma update_redis_status_no_raise_witness :
  let r := {| r_ingestion_id := "j"; r_status := YET_TO_START;
              r_batches := [mkBatchDict "b1" [1; 2; 3] YET_TO_START] |} in
  let db : gmap string JobRecord := {[ ingestion_key "j" := r ]} in
  update_redis_status keys_of (mkBatch "zz" [9] COMPLETED) db = Some db.
Proof.
  intros r db.
  apply (proj2 (update_redis_status_no_raise keys_of keys_of_spec
                  (mkBatch "zz" [9] COMPLETED) db)).
  vm_compute. intros H. inversion H; subst.
  match goal with H' : _ ∈ [] |- _ => inversion H' end.
Defined.

(** ** Records and queue entries along a run *)

Lemma with_status_shape (P : list Z → Prop) bs i b s :
  Forall (λ d, P (d_ids d)) bs → bs !! i = Some b →
  Forall (λ d, P (d_ids d)) (<[i := set_dict_status s b]> bs).
Proof.
  intros Hall Hb. apply Forall_insert; [done|]. simpl.
  rewrite Forall_forall in Hall. apply Hall. by eapply list_elem_of_lookup_2.
Qed.

Lemma ingestion_status_insert r i b :
  ingestion_status (set_record_batches (<[i := b]> (r_batches r)) r) =
    ingestion_status r.
Proof.
  unfold ingestion_status. simpl. destruct (r_batches r) as [|b0 bs]; [done|].
  by destruct i.
Qed.

Lemma to_dict_new_shape u l p now :
  record_shape (ingestion_key (u O)) (to_dict (new_IngestionJob u (u O) l p now)) ∧
  r_status (to_dict (new_IngestionJob u (u O) l p now)) =
    ingestion_status (to_dict (new_IngestionJob u (u O) l p now)).
Proof.
  split; [split; [done|]|].
  - simpl. rewrite Forall_fmap.
    destruct (create_batches_shape u l) as (_ & Hsz & _). exact Hsz.
  - unfold ingestion_status. simpl. unfold get_overall_status. simpl.
    pose proof (create_batches_status u l) as Hall.
    destruct (_create_batches u l) as [|b bs]; [done|].
    apply Forall_cons_1 in Hall as [Hb Hall]. simpl. rewrite Hb. simpl.
    destruct (existsb _ _) eqn:Hex; [|done].
    apply existsb_bool_decide, Exists_fmap, Exists_exists in Hex as (x & Hx & Hxt).
    rewrite Forall_forall in Hall. specialize (Hall x Hx). congruence.
Qed.

Section Runs.

Variable scan : gmap string JobRecord → list string.

(** What a step does to the database: nothing, the write of a new record by
    a valid ingestion, or one [update_redis_status]. *)
Lemma step_redis_cases ev st st' :
  step scan ev st = Some st' →
  redis st' = redis st ∨
  (∃ u l p now,
     redis st' =
       <[ingestion_key (u O) := to_dict (new_IngestionJob u (u O) l p now)]> (redis st)) ∨
  (∃ batch, update_redis_status scan batch (redis st) = Some (redis st')).
Proof.
  destruct ev as [now u request|iid|now]; simpl.
  - destruct (forallb _ _ && negb _); [done|]. intros [= <-].
    unfold ingest_data. destruct (List.find _ _); [by left|].
    right. left. by eexists _, _, _, _.
  - intros [= <-]. rewrite get_status_state. by left.
  - assert (Hcheck : redis (queue_check now st) = redis st).
    { unfold queue_check. by destruct (pq_get (job_queue st)) as [[[rk job] rest]|]. }
    assert (Htop : redis (loop_top now st) = redis st).
    { unfold loop_top. by destruct (Qltb _ _). }
    unfold sched_step. destruct (sched st) as [|w|w|w|j i|j i w].
    + intros [= <-]. by left.
    + destruct (Qleb w now); [|done]. intros [= <-]. by left.
    + destruct (Qleb w now); [|done]. intros [= <-]. by left.
    + destruct (Qleb w now); [|done]. intros [= <-]. by left.
    + intros [= <-]. unfold for_batch.
      destruct (batches j !! i) as [b|]; [|by left].
      destruct (update_redis_status _ _ _) as [db|] eqn:Hup; [|by left].
      right. right. by eexists.
    + destruct (Qleb w now); [|done]. unfold finish_batch.
      destruct (batches j !! i) as [b|]; [|done].
      destruct (update_redis_status _ _ _) as [db|] eqn:Hup; intros [= <-]; [|by left].
      right. right. by eexists.
Qed.

Lemma step_record_inv ev st st' :
  (∀ k r, redis st !! k = Some r → record_shape k r ∧ r_status r = ingestion_status r) →
  step scan ev st = Some st' →
  ∀ k r, redis st' !! k = Some r → record_shape k r ∧ r_status r = ingestion_status r.
Proof.
  intros Hinv [->|[(u & l & p & now & ->)|[batch Hup]]]%step_redis_cases; [done| |].
  - intros k r [[<- <-]|[_ Hr]]%lookup_insert_Some; [|by apply Hinv].
    apply to_dict_new_shape.
  - apply update_scan_cases in Hup
      as [->|(k0 & r0 & i0 & b0 & Hr0 & Hb0 & _ & ->)]; [done|].
    intros k r [[<- <-]|[_ Hr]]%lookup_insert_Some; [|by apply Hinv].
    destruct (Hinv k0 r0 Hr0) as [[Hkey Hsz] Hst].
    split; [split; [done|]|].
    + simpl. by apply (with_status_shape (λ l, (1 ≤ length l ≤ 3)%nat)).
    + rewrite ingestion_status_insert. exact Hst.
Qed.

Lemma run_record_inv evs st :
  run scan evs init = Some st →
  ∀ k r, redis st !! k = Some r → record_shape k r ∧ r_status r = ingestion_status r.
Proof.
  assert (Hgen : ∀ evs st0 st1,
    (∀ k r, redis st0 !! k = Some r →
       record_shape k r ∧ r_status r = ingestion_status r) →
    run scan evs st0 = Some st1 →
    ∀ k r, redis st1 !! k = Some r →
      record_shape k r ∧ r_status r = ingestion_status r).
  { clear. induction evs as [|ev evs IH]; intros st0 st1 Hinv; simpl.
    - by intros [= <-].
    - destruct (step scan ev st0) as [st2|] eqn:Hstep; [|done].
      apply IH. by eapply step_record_inv. }
  apply Hgen. intros k r Hr. simpl in Hr. by rewrite lookup_empty in Hr.
Qed.

(** X7.  In every state of a run of the service, the record a status query
    returns has the identifier that was asked for, and each of its batches
    carries one, two or three identifiers. *)
Theorem run_record_shape evs st iid r :
  run scan evs init = Some st → (get_status iid st).1 = OK r →
  r_ingestion_id r = iid ∧
  Forall (λ b, (1 ≤ length (d_ids b) ≤ 3)%nat) (r_batches r).
Proof.
  intros Hrun. unfold get_status.
  destruct (redis st !! ingestion_key iid) as [r0|] eqn:Hr; [|done].
  intros [= <-]. destruct (run_record_inv evs st Hrun _ _ Hr) as [[Hkey Hsz] _].
  split; [|done]. symmetry. by apply ingestion_key_inj.
Qed.

(** X8.  In every state of a run of the service, the top-level status of a
    record is the one written at ingestion, whatever the scheduler has done
    to the batches since: YET_TO_START for a record with batches, COMPLETED
    for a record without. *)
Theorem run_overall_status_fixed evs st k r :
  run scan evs init = Some st → redis st !! k = Some r →
  r_status r = match r_batches r with [] => COMPLETED | _ :: _ => YET_TO_START end.
Proof.
  intros Hrun Hr. by destruct (run_record_inv evs st Hrun _ _ Hr) as [_ Hst].
Qed.

End Runs.

Lemma run_record_shape_witness :
  let evs := [EvIngest 10%Q pretty (mkRequest [1; 2; 3; 4] HIGH);
              EvWake 10%Q; EvWake 10%Q] in
  ∃ st r,
    run keys_of evs init = Some st ∧ (get_status "0" st).1 = OK r ∧
    r_ingestion_id r = "0" ∧
    Forall (λ b, (1 ≤ length (d_ids b) ≤ 3)%nat) (r_batches r).
Proof.
  intros evs. eexists _, _.
  split; [vm_compute; reflexivity|]. split; [vm_compute; reflexivity|].
  eapply (run_record_shape keys_of evs); vm_compute; reflexivity.
Defined.

Lemma run_overall_status_fixed_witness :
  let evs := [EvIngest 10%Q pretty (mkRequest [1; 2; 3] HIGH);
              EvWake 10%Q; EvWake 10%Q; EvWake 11%Q; EvWake 11%Q] in
  ∃ st r,
    run keys_of evs init = Some st ∧ sched st = AtTop ∧
    (get_status "0" st).1 = OK r ∧
    d_status <$> r_batches r = [COMPLETED] ∧ r_status r = YET_TO_START.
Proof.
  intros evs. eexists _, _.
  split; [vm_compute; reflexivity|]. split; [reflexivity|].
  split; [vm_compute; reflexivity|]. split; [reflexivity|].
  eapply (run_overall_status_fixed keys_of evs _ (ingestion_key "0"));
    vm_compute; reflexivity.
Defined.

(** ** The scheduler along a run *)

Lemma forward_rank s s' : forward s s' → (status_rank s ≤ status_rank s')%nat.
Proof. intros [->|Hn]; [done|]. destruct s; simpl in Hn; inversion Hn; simpl; lia. Qed.


Section Dispatch.

Variable scan : gmap string JobRecord → list string.
Hypothesis scan_spec : ∀ db k, k ∈ scan db ↔ is_Some (db !! k).

Lemma run_app evs1 evs2 st :
  run scan (evs1 ++ evs2) st =
    match run scan evs1 st with
    | Some st1 => run scan evs2 st1
    | None => None
    end.
Proof.
  revert st. induction evs1 as [|ev evs1 IH]; intros st; simpl; [done|].
  by destruct (step scan ev st).
Qed.




(** X9.  In every state of a run of the service, each job in memory, on
    the queue or being dispatched, has a record whose batches are the job's
    batches as they are in memory, statuses included; and the batches of the
    jobs on the queue are all not started. *)
Theorem memory_matches_store evs st :
  run scan evs init = Some st →
  (∀ j, j ∈ mem_jobs st →
     ∃ r, (get_status (ingestion_id j) st).1 = OK r ∧
          r_batches r = Batch_to_dict <$> batches j) ∧
  (∀ e b, e ∈ job_queue st → b ∈ batches e.2 → status b = YET_TO_START).
Proof.
  intros [_ HM _ HQ _]%(reachable_Inv scan scan_spec). split.
  - intros j Hj. rewrite Forall_forall in HM.
    destruct (HM j Hj) as (r & Hr & Hbs). exists r.
    unfold get_status. fold (job_key j). by rewrite Hr.
  - intros e b He Hb. rewrite Forall_forall in HQ.
    specialize (HQ e He). rewrite Forall_forall in HQ. by apply HQ.
Qed.

(** X10.  In a run of the service the scheduler never reaches its exception
    handler, and it is never stuck: from every state there is a time from
    which a wake-up of the scheduler is a step. *)
Theorem scheduler_never_stuck evs st :
  run scan evs init = Some st →
  (∀ w, sched st ≠ Backoff w) ∧
  ∃ w, ∀ now, (w <= now)%Q → is_Some (step scan (EvWake now) st).
Proof.
  intros HI%(reachable_Inv scan scan_spec).
  split; [intros w; by apply Inv_not_backoff|].
  destruct (sched st) as [|w|w|w|j i|j i w] eqn:Hs.
  - exists 0%Q. intros now _. simpl. unfold sched_step. by rewrite Hs.
  - exists w. intros now Hle%Qleb_le. simpl. unfold sched_step. by rewrite Hs, Hle.
  - exists w. intros now Hle%Qleb_le. simpl. unfold sched_step. by rewrite Hs, Hle.
  - by destruct (Inv_not_backoff st w HI).
  - exists 0%Q. intros now _. simpl. unfold sched_step. by rewrite Hs.
  - exists w. intros now Hle.
    destruct (proj2 (working_step scan scan_spec st j i w now HI Hs) Hle)
      as (st' & j' & -> & _). done.
Qed.


End Dispatch.

Section WholeDispatch.

Variable scan : gmap string JobRecord → list string.
Hypothesis scan_spec : ∀ db k, k ∈ scan db ↔ is_Some (db !! k).

Lemma trigger_step st j i now :
  Inv st → sched st = NextBatch j i → (i < length (batches j))%nat →
  ∃ st' j', step scan (EvWake now) st = Some st' ∧
    sched st' = Working j' i (now + 1)%Q ∧
    ingestion_id j' = ingestion_id j ∧ length (batches j') = length (batches j) ∧
    job_queue st' = job_queue st ∧
    last_processed_time st' = last_processed_time st.
Proof.
  intros HI Hs [b Hb]%lookup_lt_is_Some.
  simpl. unfold sched_step. rewrite Hs. unfold for_batch. rewrite Hb.
  destruct (persist_found scan scan_spec (redis st) j i b TRIGGERED)
    as (r & _ & _ & ->);
    [apply HI | apply current_mirrored; [done | by rewrite Hs] | done |].
  eexists _, _. split; [done|]. split; [done|]. split; [done|].
  split; [|done]. cbn [batches with_batches]. apply length_insert.
Qed.

Lemma complete_step st j i w now :
  Inv st → sched st = Working j i w → (w <= now)%Q →
  ∃ st' j', step scan (EvWake now) st = Some st' ∧
    sched st' = NextBatch j' (S i) ∧
    ingestion_id j' = ingestion_id j ∧ length (batches j') = length (batches j) ∧
    job_queue st' = job_queue st ∧
    last_processed_time st' = last_processed_time st.
Proof.
  intros HI Hs Hle%Qleb_le. simpl. unfold sched_step. rewrite Hs, Hle.
  assert (Hi : (i < length (batches j))%nat).
  { destruct HI as [_ _ _ _ HS]. rewrite Hs in HS. apply HS. }
  apply lookup_lt_is_Some in Hi as [b Hb].
  unfold finish_batch. rewrite Hb.
  destruct (persist_found scan scan_spec (redis st) j i b COMPLETED)
    as (r & _ & _ & ->);
    [apply HI | apply current_mirrored; [done | by rewrite Hs] | done |].
  eexists _, _. split; [done|]. split; [done|]. split; [done|].
  split; [|done]. cbn [batches with_batches]. apply length_insert.
Qed.

(** The wake-ups of [dispatch_wakes] take the scheduler to the end of the
    [for] loop. *)
Lemma dispatch_wakes_run n st j i t :
  Inv st → sched st = NextBatch j i → (length (batches j) - i)%nat = n →
  ∃ st1 j1 i1, run scan (dispatch_wakes t n) st = Some st1 ∧
    Inv st1 ∧ sched st1 = NextBatch j1 i1 ∧ (length (batches j1) ≤ i1)%nat ∧
    ingestion_id j1 = ingestion_id j ∧ length (batches j1) = length (batches j) ∧
    job_queue st1 = job_queue st.
Proof.
  revert st j i t. induction n as [|n IH]; intros st j i t HI Hs Hn.
  - exists st, j, i. simpl. repeat (split; [done|]). split; [lia | done].
  - destruct (trigger_step st j i t HI Hs) as (sa & ja & Hstep_a & Hsa & Hida & Hlena & Hqa & _);
      [lia|].
    destruct (step_sound scan scan_spec _ _ _ HI Hstep_a) as (HIa & _).
    destruct (complete_step sa ja i (t + 1)%Q (t + 1)%Q HIa Hsa (Qle_refl _))
      as (sb & jb & Hstep_b & Hsb & Hidb & Hlenb & Hqb & _).
    destruct (step_sound scan scan_spec _ _ _ HIa Hstep_b) as (HIb & _).
    destruct (IH sb jb (S i) (t + 1)%Q HIb Hsb) as (st1 & j1 & i1 & Hrun & ? & ? & ? & Hid1 & Hlen1 & Hq1);
      [lia|].
    exists st1, j1, i1. cbn [dispatch_wakes run]. rewrite Hstep_a, Hstep_b.
    split; [exact Hrun|]. repeat (split; [done|]).
    split; [congruence|]. split; congruence.
Qed.

(** X12.  In a run of the service, once a job is popped, the scheduler woken
    at the end of each sleep takes every batch left through TRIGGERED to
    COMPLETED, one time unit per batch, and with one more wake-up records
    the time and is back at the head of its loop: the queue is as it was,
    and the job's record then has all its batches completed. *)
Theorem dispatch_completes evs st j i t t' :
  run scan evs init = Some st → sched st = NextBatch j i →
  ∃ st' r,
    run scan (dispatch_wakes t (length (batches j) - i) ++ [EvWake t']) st = Some st' ∧
    sched st' = AtTop ∧ last_processed_time st' = t' ∧
    job_queue st' = job_queue st ∧
    (get_status (ingestion_id j) st').1 = OK r ∧
    length (r_batches r) = length (batches j) ∧
    Forall (λ b, d_status b = COMPLETED) (r_batches r).
Proof.
  intros HI%(reachable_Inv scan scan_spec) Hs.
  destruct (dispatch_wakes_run _ st j i t HI Hs eq_refl)
    as (st1 & j1 & i1 & Hrun & HI1 & Hs1 & Hi1 & Hid & Hlen & Hq).
  destruct (observe_current st1 j1 i1 false) as (r & Hr & Hlenr & Hst);
    [done | by rewrite Hs1 | |].
  { destruct HI1 as [_ _ _ _ HS]. by rewrite Hs1 in HS. }
  eexists _, r. rewrite run_app, Hrun. cbn [run step]. unfold sched_step.
  rewrite Hs1. unfold for_batch. rewrite (lookup_ge_None_2 (batches j1) i1) by lia.
  split; [done|]. simpl. repeat (split; [done|]).
  split; [|split; [congruence|]].
  - rewrite <- Hid. unfold get_status in *. simpl.
    by destruct (redis st1 !! ingestion_key (ingestion_id j1)).
  - apply Forall_forall. intros b [k Hk]%list_elem_of_lookup.
    rewrite (Hst k b Hk). unfold expected_status.
    apply lookup_lt_Some in Hk. by rewrite decide_True by lia.
Qed.

(** X13.  Between any two states of a run of the service, one reached from
    the other, every record is still there with the same number of batches,
    each batch has the batch identifier it had and a status that is the same
    or further along YET_TO_START, TRIGGERED, COMPLETED; a batch that was
    completed is completed. *)
Theorem run_status_monotone evs st evs' st' :
  run scan evs init = Some st → run scan evs' st = Some st' →
  ∀ k r, redis st !! k = Some r →
    ∃ r', redis st' !! k = Some r' ∧
      length (r_batches r') = length (r_batches r) ∧
      ∀ i b b', r_batches r !! i = Some b → r_batches r' !! i = Some b' →
        d_batch_id b' = d_batch_id b ∧
        (status_rank (d_status b) ≤ status_rank (d_status b'))%nat ∧
        (d_status b = COMPLETED → d_status b' = COMPLETED).
Proof.
  intros HI%(reachable_Inv scan scan_spec).
  assert (Hgen : ∀ es st0 st1, Inv st0 → run scan es st0 = Some st1 →
    ∀ k r, redis st0 !! k = Some r →
      ∃ r', redis st1 !! k = Some r' ∧
        length (r_batches r') = length (r_batches r) ∧
        ∀ i b b', r_batches r !! i = Some b → r_batches r' !! i = Some b' →
          d_batch_id b' = d_batch_id b ∧
          (status_rank (d_status b) ≤ status_rank (d_status b'))%nat).
  { clear HI. induction es as [|ev es IH]; intros st0 st1 HI0; simpl.
    - intros [= <-] k r Hr. exists r. split; [done|]. split; [done|].
      intros i b b' Hb Hb'. assert (b' = b) as -> by congruence. done.
    - destruct (step scan ev st0) as [st2|] eqn:Hstep; [|done].
      intros Hrun k r Hr.
      destruct (step_sound scan scan_spec _ _ _ HI0 Hstep) as (HI2 & Hfw & _).
      destruct (Hfw k r Hr) as (r2 & Hr2 & Hlen2 & Hb2).
      destruct (IH st2 st1 HI2 Hrun k r2 Hr2) as (r' & Hr' & Hlen' & Hb').
      exists r'. split; [done|]. split; [congruence|].
      intros i b b' Hb Hbb.
      destruct (lookup_lt_is_Some_2 (r_batches r2) i) as [bm Hbm].
      { rewrite Hlen2. by eapply lookup_lt_Some. }
      destruct (Hb2 i b bm Hb Hbm) as [Hid1 Hf%forward_rank].
      destruct (Hb' i bm b' Hbm Hbb) as [Hid2 Hle].
      split; [congruence | lia]. }
  intros Hrun k r Hr.
  destruct (Hgen evs' st st' HI Hrun k r Hr) as (r' & Hr' & Hlen & Hb).
  exists r'. split; [done|]. split; [done|].
  intros i b b' Hbi Hbi'. destruct (Hb i b b' Hbi Hbi') as [Hid Hle].
  split; [done|]. split; [done|].
  intros Hc. rewrite Hc in Hle. by destruct (d_status b'); simpl in Hle; try lia.
Qed.

End WholeDispatch.

Lemma memory_matches_store_witness :
  let evs := [EvIngest 10%Q pretty (mkRequest [1; 2; 3; 4] HIGH);
              EvWake 10%Q; EvWake 10%Q] in
  ∃ st j r,
    run keys_of evs init = Some st ∧ sched st = Working j 0 11%Q ∧
    (get_status (ingestion_id j) st).1 = OK r ∧
    r_batches r = Batch_to_dict <$> batches j.
Proof.
  intros evs.
  destruct (run keys_of evs init) as [st|] eqn:Hrun; [|vm_compute in Hrun; discriminate Hrun].
  pose proof (proj1 (memory_matches_store keys_of keys_of_spec evs st Hrun)) as HM.
  vm_compute in Hrun. injection Hrun as <-.
  eexists _, _. 
  match goal with |- ∃ r, _ ∧ sched ?s = Working ?j _ _ ∧ _ =>
    destruct (HM j) as (r & Hr & Hbs) end.
  - unfold mem_jobs. simpl. apply list_elem_of_singleton. reflexivity.
  - exists r. split; [reflexivity|]. split; [reflexivity|].
    split; [exact Hr | exact Hbs].
Defined.

Lemma scheduler_never_stuck_witness :
  let evs := [EvIngest 10%Q pretty (mkRequest [1; 2; 3; 4] HIGH);
              EvWake 10%Q; EvWake 10%Q] in
  ∃ st w,
    run keys_of evs init = Some st ∧
    ∀ now, (w <= now)%Q → is_Some (step keys_of (EvWake now) st).
Proof.
  intros evs.
  destruct (run keys_of evs init) as [st|] eqn:Hrun; [|vm_compute in Hrun; discriminate Hrun].
  destruct (proj2 (scheduler_never_stuck keys_of keys_of_spec evs st Hrun))
    as [w Hw].
  exists st, w. split; [reflexivity | exact Hw].
Defined.


Lemma dispatch_completes_witness :
  let evs := [EvIngest 10%Q pretty (mkRequest [1; 2; 3; 4] HIGH); EvWake 10%Q] in
  ∃ st j st' r,
    run keys_of evs init = Some st ∧ sched st = NextBatch j 0 ∧
    run keys_of (dispatch_wakes 10%Q 2 ++ [EvWake 12%Q]) st = Some st' ∧
    sched st' = AtTop ∧
    (get_status "0" st').1 = OK r ∧
    Forall (λ b, d_status b = COMPLETED) (r_batches r).
Proof.
  intros evs.
  destruct (run keys_of evs init) as [st|] eqn:Hrun; [|vm_compute in Hrun; discriminate Hrun].
  pose proof (λ j i, dispatch_completes keys_of keys_of_spec evs st j i 10%Q 12%Q Hrun)
    as HD.
  vm_compute in Hrun. injection Hrun as <-.
  eexists _, _.
  match goal with |- ∃ st' r, _ ∧ sched ?s = NextBatch ?j _ ∧ _ =>
    destruct (HD j 0%nat eq_refl) as (st' & r & Hr' & Hs' & _ & _ & Hg & _ & Hall) end.
  exists st', r. split; [reflexivity|]. split; [reflexivity|].
  split; [exact Hr'|]. split; [exact Hs'|]. split; [exact Hg | exact Hall].
Defined.

Lemma run_status_monotone_witness :
  let evs := [EvIngest 10%Q pretty (mkRequest [1; 2; 3] HIGH);
              EvWake 10%Q; EvWake 10%Q; EvWake 11%Q] in
  let evs' := [EvWake 11%Q; EvIngest 12%Q (λ k, "n" +:+ pretty k) (mkRequest [5] LOW)] in
  ∃ st st' r r',
    run keys_of evs init = Some st ∧ run keys_of evs' st = Some st' ∧
    redis st !! ingestion_key "0" = Some r ∧
    redis st' !! ingestion_key "0" = Some r' ∧
    d_status <$> r_batches r = [COMPLETED] ∧
    length (r_batches r') = length (r_batches r).
Proof.
  intros evs evs'.
  destruct (run keys_of evs init) as [st|] eqn:Hrun;
    [|vm_compute in Hrun; discriminate Hrun].
  destruct (run keys_of evs' st) as [st'|] eqn:Hrun'.
  2: { exfalso. clear -Hrun Hrun'. vm_compute in Hrun. injection Hrun as <-.
       vm_compute in Hrun'. discriminate Hrun'. }
  destruct (redis st !! ingestion_key "0") as [r|] eqn:Hr.
  2: { exfalso. clear -Hrun Hr. vm_compute in Hrun. injection Hrun as <-.
       vm_compute in Hr. discriminate Hr. }
  destruct (run_status_monotone keys_of keys_of_spec evs st evs' st' Hrun Hrun' _ r Hr)
    as (r' & Hr' & Hlen & _).
  exists st, st', r, r'. split; [reflexivity|]. split; [exact Hrun'|].
  split; [exact Hr|]. split; [exact Hr'|]. split; [|exact Hlen].
  clear -Hrun Hr. vm_compute in Hrun. injection Hrun as <-.
  vm_compute in Hr. injection Hr as <-. reflexivity.
Defined.
